(** * aasw: the AASWomen newsletter generator, embedded in Rocq

    A shallow embedding of [aasw.py]: the regular expressions the script
    hands to Python's [re] module, the dual-format text nodes, the segment
    classifier [parsedstr], the item parser [aaswitems] and the control flow
    of the [__main__] block, followed by the properties established for them.

    Characters.  A Python [str] is a sequence of code points.  The embedding
    uses [string], whose characters are the 256 code points U+0000..U+00FF;
    the classes [\w] and [\s], case folding and line boundaries are those of
    CPython for that range.  Code points above U+00FF are outside the model. *)

From Stdlib Require Import String Ascii List Bool Arith NArith ZArith Lia Permutation Sorted.
From Stdlib Require Import DecimalString DecimalNat.
Import ListNotations.

Local Open Scope string_scope.
Local Open Scope list_scope.

(* ================================================================= *)
(** ** Characters *)

Definition code (c : ascii) : N := N_of_ascii c.

Definition in_range (lo hi : N) (c : ascii) : bool :=
  (N.leb lo (code c) && N.leb (code c) hi)%bool.

Definition is_char (a c : ascii) : bool := Ascii.eqb a c.

Definition nl : ascii := "010"%char.
Definition cr : ascii := "013"%char.
Definition dq : ascii := "034"%char.
Definition sq : ascii := "039"%char.
Definition backslash : ascii := "092"%char.

(** [\s] on a [str] pattern: [Py_UNICODE_ISSPACE]. *)
Definition is_space (c : ascii) : bool :=
  (in_range 9 13 c || in_range 28 32 c
   || N.eqb (code c) 133 || N.eqb (code c) 160)%bool.

(** [\w] on a [str] pattern: alphanumeric code points and the underscore. *)
Definition is_word (c : ascii) : bool :=
  (in_range 48 57 c || in_range 65 90 c || N.eqb (code c) 95
   || in_range 97 122 c
   || N.eqb (code c) 170 || in_range 178 179 c || N.eqb (code c) 181
   || in_range 185 186 c || in_range 188 190 c
   || in_range 192 214 c || in_range 216 246 c || in_range 248 255 c)%bool.

(** Simple lower-casing, as [re.IGNORECASE] applies it to a literal. *)
Definition to_lower (c : ascii) : ascii :=
  if (in_range 65 90 c || in_range 192 214 c || in_range 216 222 c)%bool
  then ascii_of_N (code c + 32) else c.

(** Line boundaries of [str.splitlines]. *)
Definition is_linebreak (c : ascii) : bool :=
  (in_range 10 13 c || in_range 28 30 c || N.eqb (code c) 133)%bool.

(* ================================================================= *)
(** ** Strings *)

(** The slice [s[a:b]] for [0 <= a]; out-of-range bounds are clamped. *)
Definition slice (a b : nat) (s : string) : string := substring a (b - a) s.

(** [s[a:]] *)
Fixpoint drop (n : nat) (s : string) : string :=
  match n, s with
  | O, _ => s
  | S n', String _ s' => drop n' s'
  | S _, EmptyString => EmptyString
  end.

Fixpoint chars (s : string) : list ascii :=
  match s with
  | EmptyString => []
  | String c s' => c :: chars s'
  end.

(** [str.rstrip()] *)
Fixpoint rstrip (s : string) : string :=
  match s with
  | EmptyString => EmptyString
  | String c s' =>
      match rstrip s' with
      | EmptyString => if is_space c then EmptyString else String c EmptyString
      | t => String c t
      end
  end.

(** [str.splitlines()]: the line terminators are dropped, a carriage return
    followed by a line feed is one terminator, and a final terminator opens
    no further line. *)
Fixpoint splitlines (s : string) : list string :=
  match s with
  | EmptyString => []
  | String c s' =>
      if is_linebreak c then
        EmptyString ::
          (if Ascii.eqb c cr then
             match s' with
             | String d s'' => if Ascii.eqb d nl then splitlines s'' else splitlines s'
             | EmptyString => []
             end
           else splitlines s')
      else
        match splitlines s' with
        | [] => [String c EmptyString]
        | l :: ls => String c l :: ls
        end
  end.

(** [html.escape(s)] with its default [quote=True]. *)
Fixpoint html_escape (s : string) : string :=
  match s with
  | EmptyString => EmptyString
  | String c s' =>
      (if Ascii.eqb c "&" then "&amp;"
       else if Ascii.eqb c "<" then "&lt;"
       else if Ascii.eqb c ">" then "&gt;"
       else if Ascii.eqb c dq then "&quot;"
       else if Ascii.eqb c sq then "&#x27;"
       else String c EmptyString) ++ html_escape s'
  end.

(** [''.join(l)] *)
Definition join (l : list string) : string := fold_right append EmptyString l.

(** [needle in hay] *)
Fixpoint contains (needle hay : string) : bool :=
  (prefix needle hay ||
   match hay with
   | EmptyString => false
   | String _ hay' => contains needle hay'
   end)%bool.

Definition is_some {A : Type} (o : option A) : bool :=
  match o with Some _ => true | None => false end.

(* ================================================================= *)
(** ** The regular expressions of Python's [re], as far as the script uses them *)

Module Re.

Record flags : Type := Flags {
  IGNORECASE : bool;
  MULTILINE : bool;
  DOTALL : bool
}.

Definition no_flags : flags := Flags false false false.

(** What one repetition of a quantifier matches.  Every [*], [+] and [+?]
    of the script is applied to a single character, class or dot. *)
Inductive atom : Type :=
| ALit (c : ascii)               (* a literal character *)
| ASet (p : ascii -> bool)       (* a class or category without cased letters *)
| ADot.                          (* [.] *)

Inductive regex : Type :=
| Eps
| Chr (a : atom)
| Str (s : string)               (* a run of literal characters *)
| Bol                            (* [^] *)
| Eol                            (* [$] *)
| WordB                          (* [\b] *)
| Cat (r1 r2 : regex)
| Alt (r1 r2 : regex)            (* [r1|r2] *)
| Opt (r : regex)                (* [r?] *)
| Star (a : atom)                (* [a*] *)
| Plus (a : atom)                (* [a+] *)
| PlusLazy (a : atom)            (* [a+?] *)
| Group (r : regex)              (* [(r)], group 1 *)
| Ahead (r : regex).             (* [(?=r)] *)

Definition lit_ok (f : flags) (a c : ascii) : bool :=
  if IGNORECASE f then Ascii.eqb (to_lower a) (to_lower c) else Ascii.eqb a c.

Definition atom_ok (f : flags) (a : atom) (c : ascii) : bool :=
  match a with
  | ALit x => lit_ok f x c
  | ASet p => p c
  | ADot => if DOTALL f then true else negb (Ascii.eqb c nl)
  end.

(** [^]: the start of the string; with MULTILINE also after each newline. *)
Definition at_bol (f : flags) (prev : option ascii) : bool :=
  match prev with
  | None => true
  | Some c => (MULTILINE f && Ascii.eqb c nl)%bool
  end.

(** [$]: the end of the string or just before a newline that ends it; with
    MULTILINE before every newline. *)
Definition at_eol (f : flags) (rest : string) : bool :=
  match rest with
  | EmptyString => true
  | String c rest' =>
      (Ascii.eqb c nl &&
       (MULTILINE f || match rest' with EmptyString => true | _ => false end))%bool
  end.

Definition word_before (prev : option ascii) : bool :=
  match prev with Some c => is_word c | None => false end.

Definition word_after (rest : string) : bool :=
  match rest with String c _ => is_word c | EmptyString => false end.

(** The span of group 1, when it took part in the match. *)
Definition capture : Type := option (nat * nat).

(** The matcher backtracks the way [sre] does.  Its state is the span of
    group 1 so far, the character before the cursor, the cursor's offset and
    the text from the cursor on; [k] is what remains to be matched. *)
Definition answer : Type := (nat * capture)%type.
Definition cont : Type := capture -> option ascii -> nat -> string -> option answer.

Definition finish : cont := fun g _ pos _ => Some (pos, g).

Fixpoint eat (f : flags) (p : string) (prev : option ascii) (pos : nat) (rest : string)
  : option (option ascii * nat * string) :=
  match p with
  | EmptyString => Some (prev, pos, rest)
  | String a p' =>
      match rest with
      | String c rest' =>
          if lit_ok f a c then eat f p' (Some c) (S pos) rest' else None
      | EmptyString => None
      end
  end.

(** Greedy repetition: the longest run first, giving characters back one by
    one while the continuation fails. *)
Fixpoint star (ok : ascii -> bool) (g : capture) (prev : option ascii) (pos : nat)
  (rest : string) (k : cont) : option answer :=
  match rest with
  | String c rest' =>
      if ok c then
        match star ok g (Some c) (S pos) rest' k with
        | Some r => Some r
        | None => k g prev pos rest
        end
      else k g prev pos rest
  | EmptyString => k g prev pos rest
  end.

(** Lazy repetition: the continuation first, one more character when it fails. *)
Fixpoint lazy_star (ok : ascii -> bool) (g : capture) (prev : option ascii) (pos : nat)
  (rest : string) (k : cont) : option answer :=
  match k g prev pos rest with
  | Some r => Some r
  | None =>
      match rest with
      | String c rest' =>
          if ok c then lazy_star ok g (Some c) (S pos) rest' k else None
      | EmptyString => None
      end
  end.

Fixpoint exec (f : flags) (r : regex) (g : capture) (prev : option ascii) (pos : nat)
  (rest : string) (k : cont) {struct r} : option answer :=
  match r with
  | Eps => k g prev pos rest
  | Chr a =>
      match rest with
      | String c rest' => if atom_ok f a c then k g (Some c) (S pos) rest' else None
      | EmptyString => None
      end
  | Str p =>
      match eat f p prev pos rest with
      | Some (prev', pos', rest') => k g prev' pos' rest'
      | None => None
      end
  | Bol => if at_bol f prev then k g prev pos rest else None
  | Eol => if at_eol f rest then k g prev pos rest else None
  | WordB => if xorb (word_before prev) (word_after rest) then k g prev pos rest else None
  | Cat r1 r2 =>
      exec f r1 g prev pos rest (fun g' prev' pos' rest' => exec f r2 g' prev' pos' rest' k)
  | Alt r1 r2 =>
      match exec f r1 g prev pos rest k with
      | Some a => Some a
      | None => exec f r2 g prev pos rest k
      end
  | Opt r1 =>
      match exec f r1 g prev pos rest k with
      | Some a => Some a
      | None => k g prev pos rest
      end
  | Star a => star (atom_ok f a) g prev pos rest k
  | Plus a =>
      match rest with
      | String c rest' =>
          if atom_ok f a c then star (atom_ok f a) g (Some c) (S pos) rest' k else None
      | EmptyString => None
      end
  | PlusLazy a =>
      match rest with
      | String c rest' =>
          if atom_ok f a c then lazy_star (atom_ok f a) g (Some c) (S pos) rest' k else None
      | EmptyString => None
      end
  | Group r1 =>
      exec f r1 g prev pos rest (fun _ prev' pos' rest' => k (Some (pos, pos')) prev' pos' rest')
  | Ahead r1 =>
      match exec f r1 g prev pos rest finish with
      | Some _ => k g prev pos rest
      | None => None
      end
  end.

(** A match object: [m.start()], [m.end()] and the span of group 1. *)
Record rmatch : Type := Match {
  m_start : nat;
  m_end : nat;
  m_span1 : capture
}.

(** An attempt at one offset. *)
Definition match_at (f : flags) (r : regex) (prev : option ascii) (pos : nat)
  (rest : string) : option rmatch :=
  match exec f r None prev pos rest finish with
  | Some (e, g) => Some (Match pos e g)
  | None => None
  end.

(** [re.match(r, s, f)] *)
Definition re_match (f : flags) (r : regex) (s : string) : option rmatch :=
  match_at f r None 0 s.

(** The leftmost offset at which an attempt succeeds, from the cursor on. *)
Fixpoint search_from (f : flags) (r : regex) (prev : option ascii) (pos : nat)
  (rest : string) : option rmatch :=
  match match_at f r prev pos rest with
  | Some m => Some m
  | None =>
      match rest with
      | String c rest' => search_from f r (Some c) (S pos) rest'
      | EmptyString => None
      end
  end.

(** [re.search(r, s, f)] *)
Definition re_search (f : flags) (r : regex) (s : string) : option rmatch :=
  search_from f r None 0 s.

(** The successive non-overlapping matches, left to right.  [skip] counts the
    characters still inside the match found last.  After an empty match the
    scan moves on by one character; none of the patterns the script scans
    with can match the empty string. *)
Fixpoint finditer_from (f : flags) (r : regex) (prev : option ascii) (pos : nat)
  (rest : string) (skip : nat) : list rmatch :=
  match skip with
  | S skip' =>
      match rest with
      | String c rest' => finditer_from f r (Some c) (S pos) rest' skip'
      | EmptyString => []
      end
  | O =>
      match match_at f r prev pos rest with
      | Some m =>
          m :: match rest with
               | String c rest' =>
                   finditer_from f r (Some c) (S pos) rest' (m_end m - pos - 1)
               | EmptyString => []
               end
      | None =>
          match rest with
          | String c rest' => finditer_from f r (Some c) (S pos) rest' O
          | EmptyString => []
          end
      end
  end.

(** [re.finditer(r, s)] *)
Definition re_finditer (f : flags) (r : regex) (s : string) : list rmatch :=
  finditer_from f r None 0 s 0.

(** [m.group(0)] *)
Definition group0 (s : string) (m : rmatch) : string := slice (m_start m) (m_end m) s.

(** [m.group(1)].  In every pattern the script reads group 1 of, the group
    is mandatory, so a match always carries its span (lemma
    [exec_sets_group]) and the empty default is never returned. *)
Definition group1 (s : string) (m : rmatch) : string :=
  match m_span1 m with
  | Some (a, b) => slice a b s
  | None => EmptyString
  end.

(** The pieces of [s] between the matches [ms], as [re.split] returns them
    for a pattern without groups. *)
Fixpoint pieces (s : string) (cur : nat) (ms : list rmatch) : list string :=
  match ms with
  | [] => [drop cur s]
  | m :: ms' => slice cur (m_start m) s :: pieces s (m_end m) ms'
  end.

(** [re.split(r, s)] *)
Definition re_split (f : flags) (r : regex) (s : string) : list string :=
  pieces s 0 (re_finditer f r s).

(** [re.sub(r, repl, s, count=1)] for a replacement without back-references. *)
Definition re_sub1 (f : flags) (r : regex) (repl s : string) : string :=
  match re_search f r s with
  | Some m => slice 0 (m_start m) s ++ repl ++ drop (m_end m) s
  | None => s
  end.

End Re.

Import Re.

Notation "r1 +++ r2" := (Cat r1 r2) (at level 60, right associativity).

(** The characters listed in a bracket expression. *)
Definition one_of (members : string) (c : ascii) : bool :=
  existsb (Ascii.eqb c) (chars members).

Definition sp : atom := ALit " ".

(* ================================================================= *)
(** ** Exceptions *)

Inductive exn : Type :=
| ValueError (msg : string)
| KeyError (key : string).

Inductive result (A : Type) : Type :=
| Ok (a : A)
| Raise (e : exn).

Arguments Ok {A} a.
Arguments Raise {A} e.

Definition bind {A B : Type} (x : result A) (k : A -> result B) : result B :=
  match x with
  | Ok a => k a
  | Raise e => Raise e
  end.

Notation "x <- e1 ;; e2" := (bind e1 (fun x => e2))
  (at level 61, e1 at next level, right associativity).

(* ================================================================= *)
(** ** Global settings *)

Definition final_text_filename : string := "final-items.jaml".

(** [confirm_urls] is [False]: [urlstr] issues no request and prints nothing. *)
Definition confirm_urls : bool := false.

Definition job_opp_boilerplate : string :=
  String nl
    ("For those interested in increasing excellence and diversity in their organizations, a list of resources and advice is here:"
     ++ String nl (String nl
    ("https://aas.org/comms/cswa/resources/Diversity#howtoincrease"
     ++ String nl (String nl EmptyString)))).

(* ================================================================= *)
(** ** Dual-format text nodes *)

Record texthtmlstr : Type := TextHtml {
  text : string;
  html : string
}.

Definition print_text (n : texthtmlstr) : string := text n.
Definition print_html (n : texthtmlstr) : string := html n.

Definition texthtmlstr_init (s : string) : texthtmlstr :=
  TextHtml s (html_escape s).

Definition urlstr_init (url : string) : texthtmlstr :=
  TextHtml url
    ("<a href=" ++ String dq url ++ String dq ">" ++ url ++ "</a>").

Definition parabreakstr_init (after_single : bool) : texthtmlstr :=
  TextHtml (if after_single then String nl EmptyString
            else String nl (String nl EmptyString))
           "</p><p>".

Definition separator_init : texthtmlstr :=
  TextHtml
    ("-------------------------------------------------------------------------------"
     ++ String nl EmptyString)
    "<hr />".

Definition singleline_init (s : string) : texthtmlstr :=
  TextHtml (rstrip s ++ String nl EmptyString)
           (html_escape s ++ "<br />" ++ String nl EmptyString).

Definition htmlonly_init (code : string) : texthtmlstr :=
  TextHtml EmptyString code.

(** [mixedstr]: the list [texthtml_strings]. *)
Definition mixedstr : Type := list texthtmlstr.

Definition mixedstr_print_text (m : mixedstr) : string :=
  join (map print_text m).

Definition mixedstr_print_html (m : mixedstr) : string :=
  "<p>" ++ join (map print_html m) ++ "</p>".

(** [mixedstr.add]: a [mixedstr] contributes its nodes, anything else itself. *)
Definition add (self : mixedstr) (o : texthtmlstr + mixedstr) : mixedstr :=
  match o with
  | inl n => self ++ [n]
  | inr m => self ++ m
  end.

(* ================================================================= *)
(** ** The segment classifier [parsedstr] *)

Definition url_body_char (c : ascii) : bool :=
  (is_word c || one_of "/#~:.?+=&%@!-.:?" c || is_char backslash c || is_char "-" c)%bool.

Definition url_trailer_char (c : ascii) : bool := one_of ".:?-" c.

Definition url_follow_char (c : ascii) : bool :=
  negb (is_word c || one_of "/#~:.?+=&%@!-.:?-" c).

(** The pattern
    "\b(?:https?|telnet|gopher|file|wais|ftp):[\w/#~:.?+=&%@!\-.:?\\-]+?(?=[.:?\-]*(?:[^\w/#~:.?+=&%@!\-.:?\-]|$))".
    The class of the body holds the backslash, the negated class of the
    look-ahead does not. *)
Definition url_regex : regex :=
  WordB
  +++ Alt (Str "http" +++ Opt (Str "s"))
     (Alt (Str "telnet") (Alt (Str "gopher") (Alt (Str "file")
     (Alt (Str "wais") (Str "ftp")))))
  +++ Str ":"
  +++ PlusLazy (ASet url_body_char)
  +++ Ahead (Star (ASet url_trailer_char) +++ Alt (Chr (ASet url_follow_char)) Eol).

(** The pattern "\n\s*\n". *)
Definition parbreak_regex : regex :=
  Chr (ALit nl) +++ Star (ASet is_space) +++ Chr (ALit nl).

(** The pattern of line 249: spaces, a dash, spaces, then group 1 holding
    a greedy run of the dot, then [$]. *)
Definition jobline_regex : regex :=
  Star sp +++ Str "-" +++ Star sp +++ Group (Star ADot) +++ Eol.

(** A segment dictionary; paragraph breaks carry no ['value']. *)
Record segment : Type := Segment {
  start : nat;
  end_ : nat;
  type : string;
  value : option string
}.

(** [seg['value']] *)
Definition get_value (seg : segment) : result string :=
  match value seg with
  | Some v => Ok v
  | None => Raise (KeyError "value")
  end.

(** [segments.sort(key=itemgetter('start'))]: a stable sort on ['start'].
    [x] comes before the segments of [l] in the list being sorted, so it
    is put in front of those with the same start. *)
Fixpoint insert_by_start (x : segment) (l : list segment) : list segment :=
  match l with
  | [] => [x]
  | y :: l' =>
      if (start x <=? start y)%nat then x :: l else y :: insert_by_start x l'
  end.

Fixpoint sort_by_start (l : list segment) : list segment :=
  match l with
  | [] => []
  | x :: l' => insert_by_start x (sort_by_start l')
  end.

Definition paragraph_spans (s : string) : list segment :=
  map (fun m => Segment (m_start m) (m_end m) "p" None)
      (re_finditer no_flags parbreak_regex s).

Definition url_spans (s : string) : list segment :=
  map (fun m => Segment (m_start m) (m_end m) "u" (Some (group0 s m)))
      (re_finditer no_flags url_regex s).

(** The loop over [range(len(segments))]: it visits the spans found by the
    two scans and appends a text segment for each gap behind them. *)
Fixpoint fill_gaps (s : string) (spans : list segment) (current_pos : nat)
  (appended : list segment) : nat * list segment :=
  match spans with
  | [] => (current_pos, appended)
  | seg :: spans' =>
      fill_gaps s spans' (end_ seg)
        (if (current_pos <? start seg)%nat
         then appended ++ [Segment current_pos (start seg) "t"
                             (Some (slice current_pos (start seg) s))]
         else appended)
  end.

(** The list [segments] when the constructor returns, for the string [s]
    it classifies (after the boilerplate has been prepended). *)
Definition segments_of (s : string) : list segment :=
  let found := paragraph_spans s ++ url_spans s in
  match found with
  | [] => []
  | _ =>
      let sorted := sort_by_start found in
      let '(current_pos, appended) := fill_gaps s sorted 0 [] in
      let final :=
        if (current_pos <? String.length s)%nat
        then [Segment current_pos (String.length s) "t" (Some (drop current_pos s))]
        else [] in
      sort_by_start (sorted ++ appended ++ final)
  end.

(** A line of a text segment in the Job Opportunities section. *)
Definition jobstr (jobline : string) : texthtmlstr :=
  match re_match no_flags jobline_regex jobline with
  | Some m =>
      let n := texthtmlstr_init ("- " ++ group1 jobline m ++ String nl EmptyString) in
      TextHtml (text n) (html n ++ "<br />")
  | None => texthtmlstr_init jobline
  end.

(** The nodes one segment adds to [texthtml_strings]. *)
Definition emit (job : bool) (seg : segment) : result (list texthtmlstr) :=
  if String.eqb (type seg) "p" then Ok [parabreakstr_init false]
  else if String.eqb (type seg) "u" then
    v <- get_value seg ;; Ok [urlstr_init v]
  else if String.eqb (type seg) "t" then
    v <- get_value seg ;;
    Ok (if job then map jobstr (splitlines v) else [texthtmlstr_init v])
  else Raise (ValueError "Segment type unknown.").

Fixpoint emit_all (job : bool) (segs : list segment) : result (list texthtmlstr) :=
  match segs with
  | [] => Ok []
  | seg :: segs' =>
      ns <- emit job seg ;;
      rest <- emit_all job segs' ;;
      Ok (ns ++ rest)
  end.

(** The string the constructor classifies. *)
Definition classified (s : string) (job : bool) : string :=
  if job then job_opp_boilerplate ++ s else s.

(** [parsedstr(s, job)]: the resulting [texthtml_strings], or the exception. *)
Definition parsedstr_init (s : string) (job : bool) : result mixedstr :=
  emit_all job (segments_of (classified s job)).

(* ================================================================= *)
(** ** The item parser [aaswitems] *)

Definition M : flags := Flags false true false.
Definition MI : flags := Flags true true false.
Definition MIS : flags := Flags true true true.
Definition I : flags := Flags true false false.

(** The delimiter of line 47: three dashes. *)
Definition delimiter_regex : regex := Str "---".

(** Line 51: spaces, then [$]. *)
Definition blank_item_regex : regex := Star sp +++ Eol.

(** A field line, as on lines 56, 57, 71 and 79: [^], the field name and
    its colon, an optional space, group 1 holding a greedy run of the dot,
    then [$]. *)
Definition field_regex (name : string) : regex :=
  Bol +++ Str name +++ Opt (Chr sp) +++ Group (Star ADot) +++ Eol.

Definition imgurl_regex : regex := field_regex "img-url:".
Definition imgcaption_regex : regex := field_regex "img-caption:".
Definition title_regex : regex := field_regex "title:".
Definition from_regex : regex := field_regex "from:".

(** Line 60: [^], spaces, [$]. *)
Definition blank_value_regex : regex := Bol +++ Star sp +++ Eol.

(** Line 84: [^], the field name, a greedy run of [\s], then group 1 holding
    a greedy run of the dot (which, under DOTALL, runs to the end). *)
Definition body_regex : regex :=
  Bol +++ Str "text:" +++ Star (ASet is_space) +++ Group (Star ADot).

(** Line 86: spaces, the phrase, spaces. *)
Definition job_regex : regex :=
  Star sp +++ Str "Job Opportunities" +++ Star sp.

(** Line 86: the flag handed to [parsedstr] as [job]. *)
Definition isjob (title : string) : bool :=
  is_some (re_search I job_regex title).

(** An entry of [self.items]; ['from'] is present only when a from line was found. *)
Record item : Type := Item {
  item_title : string;
  item_from : option string;
  item_text : mixedstr
}.

(** [self.image['caption']] starts as the empty string. *)
Inductive caption : Type :=
| NoCaption
| Caption (n : texthtmlstr).

Record aaswitems : Type := Aaswitems {
  items : list item;
  image_url : string;
  image_caption : caption
}.

Definition title_missing (itemtext : string) : exn :=
  ValueError ("Title could not be found for the following item:"
              ++ String nl itemtext ++ String nl EmptyString).

Definition body_missing (itemtext : string) : exn :=
  ValueError ("Text body could not be found for the following item:"
              ++ String nl itemtext ++ String nl EmptyString).

(** One turn of the loop over [itemtexts] (lines 49 to 93). *)
Definition parse_item (self : aaswitems) (itemtext : string) : result aaswitems :=
  if is_some (re_match no_flags blank_item_regex itemtext) then Ok self
  else
    let mimgurl := re_search M imgurl_regex itemtext in
    let mimgcaption := re_search M imgcaption_regex itemtext in
    match mimgurl with
    | Some mu =>
        if is_some (re_match no_flags blank_value_regex (group1 itemtext mu))
        then Ok self
        else
          Ok (Aaswitems (items self) (group1 itemtext mu)
                (match mimgcaption with
                 | Some mc => Caption (texthtmlstr_init (group1 itemtext mc))
                 | None => image_caption self
                 end))
    | None =>
        match re_search MI title_regex itemtext with
        | None => Raise (title_missing itemtext)
        | Some mtitle =>
            let title := rstrip (group1 itemtext mtitle) in
            let from := option_map (group1 itemtext) (re_search MI from_regex itemtext) in
            match re_search MIS body_regex itemtext with
            | Some mbody =>
                body <- parsedstr_init (rstrip (group1 itemtext mbody)) (isjob title) ;;
                Ok (Aaswitems (items self ++ [Item title from body])
                      (image_url self) (image_caption self))
            | None => Raise (body_missing itemtext)
            end
        end
    end.

Fixpoint parse_items (self : aaswitems) (itemtexts : list string) : result aaswitems :=
  match itemtexts with
  | [] => Ok self
  | itemtext :: itemtexts' =>
      self' <- parse_item self itemtext ;;
      parse_items self' itemtexts'
  end.

(** One turn of the loop over the two file contents. *)
Definition parse_filetext (self : aaswitems) (filetext : string) : result aaswitems :=
  parse_items self (re_split no_flags delimiter_regex filetext).

Definition empty_aaswitems : aaswitems := Aaswitems [] EmptyString NoCaption.

(** [aaswitems(filename)], given what the two files hold. *)
Definition aaswitems_init (fulltext finaltext : string) : result aaswitems :=
  self <- parse_filetext empty_aaswitems fulltext ;;
  parse_filetext self finaltext.

(* ================================================================= *)
(** ** The [__main__] block *)

(** Line 342 and 347: an optional group 1 of a dot and a greedy run of [\S],
    then [$]. *)
Definition extension_regex : regex :=
  Opt (Group (Str "." +++ Plus (ASet (fun c => negb (is_space c))))) +++ Eol.

(** Line 344: a dot, [txt], then [$]. *)
Definition txt_regex : regex := Str ".txt" +++ Eol.

Definition clobber_warning : string :=
  "Warning! Rename input file to have a different extension so the .txt file does not get clobbered."
  ++ String nl EmptyString.

Inductive status : Type :=
| Returned
| Exited (code : nat)
| Uncaught (e : exn).

(** What a run leaves behind: how it ended, what it printed, and the files it
    wrote, oldest first, each with its name and contents. *)
Record outcome : Type := Outcome {
  how : status;
  printed : list string;
  written : list (string * string)
}.

Section Main.

(** The contents [open(name).read()] returns. *)
Variable read_file : string -> string.

(** [build_newsletter]: the title it prints and the newsletter it returns.
    It depends on the date and on the image it fetches. *)
Variable build_newsletter : aaswitems -> string * mixedstr.

Definition main (argv : list string) : outcome :=
  match argv with
  | [_; input_fname] =>
      let out_html_fname := re_sub1 no_flags extension_regex ".html" input_fname in
      if is_some (re_match no_flags txt_regex input_fname)
      then Outcome (Exited 1) [clobber_warning] []
      else
        let out_txt_fname := re_sub1 no_flags extension_regex ".txt" input_fname in
        match aaswitems_init (read_file input_fname) (read_file final_text_filename) with
        | Raise e => Outcome (Uncaught e) [] []
        | Ok newsletter_items =>
            let '(heading, full_newsletter) := build_newsletter newsletter_items in
            Outcome Returned
              [heading;
               ("HTML newsletter written to " ++ out_html_fname)%string;
               ("Text newsletter written to " ++ out_txt_fname)%string]
              [(out_html_fname, mixedstr_print_html full_newsletter);
               (out_txt_fname, mixedstr_print_text full_newsletter)]
        end
  | _ =>
      Outcome (Exited 1)
        [("Usage: " ++ hd EmptyString argv ++ " infile" ++ String nl EmptyString)%string] []
  end.

End Main.

(* ================================================================= *)
(** ** Vocabulary of the specification *)

(** Equality of characters, up to case when [ci] is set. *)
Definition same_char (ci : bool) (a c : ascii) : bool :=
  if ci then Ascii.eqb (to_lower a) (to_lower c) else Ascii.eqb a c.

(** [s] begins with [pfx]. *)
Fixpoint starts_with (ci : bool) (pfx s : string) : bool :=
  match pfx with
  | EmptyString => true
  | String a pfx' =>
      match s with
      | String c s' => (same_char ci a c && starts_with ci pfx' s')%bool
      | EmptyString => false
      end
  end.

(** The lines of a text: what lies between its newlines. *)
Fixpoint lines (s : string) : list string :=
  match s with
  | EmptyString => [EmptyString]
  | String c s' =>
      if Ascii.eqb c nl then EmptyString :: lines s'
      else
        match lines s' with
        | [] => [String c EmptyString]
        | l :: ls => String c l :: ls
        end
  end.

(** Some line of [block] begins with [name]. *)
Definition has_line (ci : bool) (name block : string) : bool :=
  existsb (starts_with ci name) (lines block).

(** The first line of [block] that begins with [name], if there is one. *)
Definition first_line_with (ci : bool) (name block : string) : option string :=
  find (starts_with ci name) (lines block).

(** [v] without its leading space, if it has one. *)
Definition less_space (v : string) : string :=
  match v with
  | String c v' => if Ascii.eqb c " " then v' else v
  | EmptyString => EmptyString
  end.

(** What follows the field name on a line, less one leading space. *)
Definition field_value (name line : string) : string :=
  less_space (drop (String.length name) line).

Definition no_nl (s : string) : bool :=
  forallb (fun c => negb (Ascii.eqb c nl)) (chars s).

Definition first_line (s : string) : string := hd EmptyString (lines s).

(** [r] is empty or begins with a newline. *)
Definition line_end (r : string) : Prop :=
  match r with
  | EmptyString => True
  | String c _ => c = nl
  end.

(** The character before the cursor once [w] has been read. *)
Fixpoint last_char (w : string) (prev : option ascii) : option ascii :=
  match w with
  | EmptyString => prev
  | String c w' => last_char w' (Some c)
  end.

(** [needle] occurs in [hay], up to case. *)
Fixpoint contains_ci (needle hay : string) : bool :=
  (starts_with true needle hay ||
   match hay with
   | EmptyString => false
   | String _ hay' => contains_ci needle hay'
   end)%bool.

Definition all_spaces (s : string) : bool :=
  forallb (Ascii.eqb " ") (chars s).

Definition whitespace_only (s : string) : bool :=
  forallb is_space (chars s).

(** [str.lstrip()] and [str.strip()] *)
Fixpoint lstrip (s : string) : string :=
  match s with
  | String c s' => if is_space c then lstrip s' else s
  | EmptyString => EmptyString
  end.

Definition strip (s : string) : string := lstrip (rstrip s).

(** [a] and [b] are the same text, up to case. *)
Definition equal_ci (a b : string) : bool :=
  (starts_with true a b && Nat.eqb (String.length a) (String.length b))%bool.

(** The title is the phrase, up to case and surrounding whitespace. *)
Definition is_phrase (phrase title : string) : bool :=
  equal_ci phrase (strip title).

(** The segments tile [0, n): each starts where the one before it ends. *)
Fixpoint tiles (from : nat) (segs : list segment) (n : nat) : Prop :=
  match segs with
  | [] => from = n
  | seg :: segs' => start seg = from /\ from < end_ seg /\ tiles (end_ seg) segs' n
  end.

(** The source substrings of the segments, in order. *)
Definition covered (s : string) (segs : list segment) : string :=
  join (map (fun seg => slice (start seg) (end_ seg) s) segs).

Definition known_type (seg : segment) : Prop :=
  type seg = "p" \/ type seg = "u" \/ type seg = "t".

(** A segment as the classifier builds them: a paragraph break, or a URL or
    text segment whose value is the text it spans. *)
Definition built (s : string) (seg : segment) : Prop :=
  (type seg = "p" /\ value seg = None) \/
  (type seg = "u" /\ value seg = Some (slice (start seg) (end_ seg) s)) \/
  (type seg = "t" /\ value seg = Some (slice (start seg) (end_ seg) s)).

(** Group 1 lies on every path through [r]. *)
Fixpoint sets_group (r : regex) : bool :=
  match r with
  | Group _ => true
  | Cat r1 r2 => (sets_group r1 || sets_group r2)%bool
  | Alt r1 r2 => (sets_group r1 && sets_group r2)%bool
  | _ => false
  end.

(** What a field pattern reads behind the field name. *)
Definition field_tail : regex := Opt (Chr sp) +++ Group (Star ADot) +++ Eol.

(** The block of the scenario in section 8 of the specification. *)
Definition example_block : string :=
  "title: Test" ++ String nl "text: Visit http://example.com today.".

Definition example_anchor : string :=
  "<a href=" ++ String dq "http://example.com" ++ String dq ">http://example.com</a>".

(** The least number of characters a match of [r] takes. *)
Fixpoint min_len (r : regex) : nat :=
  match r with
  | Chr _ | Plus _ | PlusLazy _ => 1
  | Str p => String.length p
  | Cat r1 r2 => min_len r1 + min_len r2
  | Alt r1 r2 => Nat.min (min_len r1) (min_len r2)
  | Group r1 => min_len r1
  | _ => 0
  end.

(** The characters a match of [r] can take. *)
Fixpoint eats (f : flags) (r : regex) (c : ascii) : bool :=
  match r with
  | Chr a | Star a | Plus a | PlusLazy a => atom_ok f a c
  | Str p => existsb (fun a => lit_ok f a c) (chars p)
  | Cat r1 r2 | Alt r1 r2 => (eats f r1 c || eats f r2 c)%bool
  | Opt r1 | Group r1 => eats f r1 c
  | _ => false
  end.

(** [whole] holds, from offset [a] to offset [b], characters of the class [P] only. *)
Definition holds (P : ascii -> bool) (whole : string) (a b : nat) : Prop :=
  exists pre w post,
    whole = (pre ++ w ++ post)%string /\ a = String.length pre /\
    b = String.length pre + String.length w /\ forallb P (chars w) = true.

(** Matches in scanning order from offset [lo] on, none of them empty, each
    over characters of the class [P]. *)
Fixpoint spans_ok (P : ascii -> bool) (whole : string) (lo : nat) (ms : list rmatch) : Prop :=
  match ms with
  | [] => True
  | m :: ms' =>
      lo <= m_start m /\ m_start m < m_end m /\
      holds P whole (m_start m) (m_end m) /\
      spans_ok P whole (m_end m) ms'
  end.

(** Segments in order from offset [lo] on, none empty, none overlapping the next. *)
Fixpoint chain (lo : nat) (segs : list segment) : Prop :=
  match segs with
  | [] => True
  | seg :: segs' => lo <= start seg /\ start seg < end_ seg /\ chain (end_ seg) segs'
  end.

(** Two segments that share no offset. *)
Definition apart (a b : segment) : Prop := end_ a <= start b \/ end_ b <= start a.

Definition le_start (a b : segment) : Prop := start a <= start b.
Definition lt_start (a b : segment) : Prop := start a < start b.

Definition text_seg (s : string) (a b : nat) : segment :=
  Segment a b "t" (Some (slice a b s)).

(** The text segments [fill_gaps] appends, and the offset it ends at. *)
Fixpoint gaps (s : string) (cur : nat) (ch : list segment) : list segment :=
  match ch with
  | [] => []
  | seg :: ch' =>
      (if (cur <? start seg)%nat then [text_seg s cur (start seg)] else [])
      ++ gaps s (end_ seg) ch'
  end.

Fixpoint last_end (cur : nat) (ch : list segment) : nat :=
  match ch with
  | [] => cur
  | seg :: ch' => last_end (end_ seg) ch'
  end.

Definition final_gap (s : string) (cur : nat) : list segment :=
  if (cur <? String.length s)%nat
  then [Segment cur (String.length s) "t" (Some (drop cur s))]
  else [].

(** The spans [ch] with the gaps before, between and behind them filled. *)
Fixpoint tiling (s : string) (cur : nat) (ch : list segment) : list segment :=
  match ch with
  | [] => final_gap s cur
  | seg :: ch' =>
      (if (cur <? start seg)%nat then [text_seg s cur (start seg)] else [])
      ++ seg :: tiling s (end_ seg) ch'
  end.

(* ================================================================= *)
(** ** The title lines and [build_newsletter] *)

(** [str(n)], as an f-string prints a non-negative [int]. *)
Definition str_of_nat (n : nat) : string := NilEmpty.string_of_uint (Nat.to_uint n).

(** A string between double quotes. *)
Definition quoted (s : string) : string := String dq (s ++ String dq EmptyString).

(** [if uniqident:] holds for a string that is not empty. *)
Definition truthy (uniqident : option string) : bool :=
  match uniqident with
  | Some (String _ _) => true
  | _ => false
  end.

(** The anchor name [itemstring] of lines 156 to 159. *)
Definition itemstring (itemnumber : nat) (uniqident : option string) : string :=
  match uniqident with
  | Some u => if truthy uniqident
              then "item" ++ u ++ "-" ++ str_of_nat itemnumber
              else "item" ++ str_of_nat itemnumber
  | None => "item" ++ str_of_nat itemnumber
  end.

(** [titleline(text, itemnumber, uniqident, from_toc)] *)
Definition titleline_init (title : string) (itemnumber : nat) (uniqident : option string)
  (from_toc : bool) : texthtmlstr :=
  TextHtml
    (str_of_nat itemnumber ++ ". " ++ title ++ String nl EmptyString)
    (if from_toc
     then "<a href=" ++ quoted ("#" ++ itemstring itemnumber uniqident) ++ ">"
          ++ str_of_nat itemnumber ++ ". " ++ title ++ "</a><br />" ++ String nl EmptyString
     else "<div id=" ++ quoted (itemstring itemnumber uniqident) ++ ">"
          ++ str_of_nat itemnumber ++ ". " ++ title ++ "</div>" ++ String nl EmptyString).

Definition editor_list : string :=
  "Jeremy Bailin, Nicolle Zellner, Sethanne Howard, and Hannah Jang-Condell".

(** A date is modelled by its ordinal [date.toordinal()]; adding a
    [timedelta] of [n] days adds [n] to it. *)
Definition weekday (ordinal : Z) : Z := ((ordinal + 6) mod 7)%Z.

Definition FRIDAY : Z := 4%Z.

(** Line 279: the date the issue is dated. *)
Definition issue_friday (today : Z) : Z :=
  (today + (FRIDAY - weekday today) mod 7)%Z.

(** [enumerate(l, start=n)] *)
Fixpoint enumerate {A : Type} (n : nat) (l : list A) : list (nat * A) :=
  match l with
  | [] => []
  | x :: l' => (n, x) :: enumerate (S n) l'
  end.

(** What [build_newsletter] can end with besides its return value. *)
Inductive build_error : Type :=
| ParserError (e : exn)
| AttributeError (msg : string).

Inductive build_result : Type :=
| Built (email_blog_title : string) (newsletter : mixedstr)
| BuildRaise (e : build_error).

Definition online_notice : string :=
  "An online version of this newsletter will be available at http://womeninastronomy.blogspot.com/ at 3:00 PM ET every Friday.".

(** The HTML of the image block of line 296. *)
Definition img_html (url : string) (width height : nat) (caption_html : string) : string :=
  "<div class=" ++ quoted "separator" ++ " style=" ++ quoted "clear: both;" ++ "><a href="
  ++ quoted url ++ " style="
  ++ quoted "display: block; padding: 1em 0; text-align: center; clear: right; float: right;"
  ++ "><img alt=" ++ quoted "" ++ " border=" ++ quoted "0" ++ " width=" ++ quoted "320"
  ++ " data-original-height=" ++ quoted (str_of_nat height)
  ++ " data-original-width=" ++ quoted (str_of_nat width)
  ++ " src=" ++ quoted url ++ "><br />" ++ caption_html ++ "</a></div>".

(** The lines of the table of contents (lines 308 and 309). *)
Definition toc_lines (uniqident : string) (its : list (nat * item)) : mixedstr :=
  map (fun p => titleline_init (item_title (snd p)) (fst p) (Some uniqident) true) its.

(** What one turn of the loop of lines 315 to 325 adds. *)
Definition item_section (uniqident : string) (p : nat * item) : mixedstr :=
  [parabreakstr_init true; separator_init;
   titleline_init (item_title (snd p)) (fst p) (Some uniqident) false]
  ++ match item_from (snd p) with
     | Some from => [texthtmlstr_init ("From: " ++ from); parabreakstr_init true]
     | None => []
     end
  ++ [parabreakstr_init true]
  ++ item_text (snd p)
  ++ [parabreakstr_init true;
      htmlonly_init ("<a href=" ++ quoted ("#" ++ uniqident ++ "-top") ++ ">Back to top.</a></p>")].

Section Newsletter.

(** [format(friday, spec)] for the format codes the f-strings use, and [friday.day]. *)
Variable strftime : string -> Z -> string.
Variable day : Z -> nat.

(** The size of the image behind a URL, as [requests] and [PIL] report it. *)
Variable image_size : string -> nat * nat.

Definition issue_datestr (friday : Z) : string :=
  strftime "%B" friday ++ " " ++ str_of_nat (day friday) ++ ", " ++ strftime "%Y" friday.

Definition uniqident_of (friday : Z) : string :=
  strftime "%y" friday ++ strftime "%m" friday ++ strftime "%d" friday.

(** The nodes added before the table of contents, the image block apart. *)
Definition masthead (friday : Z) : mixedstr :=
  [htmlonly_init ("<div id=" ++ quoted (uniqident_of friday ++ "-top") ++ "></div>");
   singleline_init "AAS Committee on the Status of Women";
   singleline_init ("Issue of " ++ issue_datestr friday);
   singleline_init ("eds: " ++ editor_list);
   parabreakstr_init true;
   singleline_init "[We hope you all are taking care of yourselves and each other. --eds.]";
   parabreakstr_init true;
   singleline_init "This week's issues:";
   parabreakstr_init true].

(** What lines 299 to 325 add, given the nodes of the notice of line 311. *)
Definition newsletter_body (friday : Z) (notice : mixedstr) (its : list item) : mixedstr :=
  masthead friday
  ++ toc_lines (uniqident_of friday) (enumerate 1 its)
  ++ [parabreakstr_init true]
  ++ notice
  ++ [htmlonly_init "<!--more-->"; parabreakstr_init true]
  ++ concat (map (item_section (uniqident_of friday)) (enumerate 1 its)).

(** [build_newsletter(items)], run on the day [today]. *)
Definition build_newsletter (today : Z) (its : aaswitems) : build_result :=
  let friday := issue_friday today in
  let uniqident := uniqident_of friday in
  let email_blog_title := ("AASWomen Newsletter for " ++ issue_datestr friday)%string in
  let image_block :=
    if String.eqb (image_url its) EmptyString then inl []
    else
      let '(width, height) := image_size (image_url its) in
      match image_caption its with
      | Caption c => inl [htmlonly_init (img_html (image_url its) width height (print_html c))]
      | NoCaption => inr (AttributeError "'str' object has no attribute 'print_html'")
      end in
  match image_block with
  | inr e => BuildRaise e
  | inl image_nodes =>
      match parsedstr_init online_notice false with
      | Raise e => BuildRaise (ParserError e)
      | Ok notice =>
          Built email_blog_title (image_nodes ++ newsletter_body friday notice (items its))
      end
  end.

End Newsletter.

(** [sep.join(l)] *)
Fixpoint join_with (sep : string) (l : list string) : string :=
  match l with
  | [] => EmptyString
  | [x] => x
  | x :: l' => x ++ sep ++ join_with sep l'
  end.

(** The plain text and the HTML a segment of a body contributes when the job
    flag is off. *)
Definition segment_text (s : string) (seg : segment) : string :=
  if String.eqb (type seg) "p" then String nl (String nl EmptyString)
  else slice (start seg) (end_ seg) s.

Definition segment_html (s : string) (seg : segment) : string :=
  if String.eqb (type seg) "p" then "</p><p>"
  else if String.eqb (type seg) "u" then html (urlstr_init (slice (start seg) (end_ seg) s))
  else html_escape (slice (start seg) (end_ seg) s).

(** The characters that end or open markup or an attribute value. *)
Definition markup_char (c : ascii) : bool :=
  (Ascii.eqb c "<" || Ascii.eqb c ">" || Ascii.eqb c dq || Ascii.eqb c sq)%bool.

(** The texts a match of [r] can be: the language of the pattern, its
    assertions read as the empty text. *)
Fixpoint lang (f : flags) (r : regex) (w : string) : Prop :=
  match r with
  | Eps | Bol | Eol | WordB | Ahead _ => w = EmptyString
  | Chr a => exists c, w = String c EmptyString /\ atom_ok f a c = true
  | Str p => String.length w = String.length p /\ starts_with (IGNORECASE f) p w = true
  | Cat r1 r2 => exists w1 w2, w = (w1 ++ w2)%string /\ lang f r1 w1 /\ lang f r2 w2
  | Alt r1 r2 => lang f r1 w \/ lang f r2 w
  | Opt r1 => w = EmptyString \/ lang f r1 w
  | Star a => forallb (atom_ok f a) (chars w) = true
  | Plus a | PlusLazy a => w <> EmptyString /\ forallb (atom_ok f a) (chars w) = true
  | Group r1 => lang f r1 w
  end.

(** [ms] is what a scan of [whole] from offset [lo] on finds: each match is
    the attempt that succeeds at its start, no attempt succeeds between one
    match and the next, and none behind the last. *)
Fixpoint scan_ok (f : flags) (r : regex) (whole : string) (lo : nat) (ms : list rmatch) : Prop :=
  match ms with
  | [] =>
      forall pre rest, whole = (pre ++ rest)%string -> lo <= String.length pre ->
        match_at f r (last_char pre None) (String.length pre) rest = None
  | m :: ms' =>
      lo <= m_start m /\ m_start m < m_end m /\
      (exists pre w post,
          whole = (pre ++ w ++ post)%string /\ m_start m = String.length pre /\
          m_end m = String.length pre + String.length w /\ lang f r w /\
          match_at f r (last_char pre None) (String.length pre) (w ++ post) = Some m) /\
      (forall pre rest, whole = (pre ++ rest)%string ->
         lo <= String.length pre -> String.length pre < m_start m ->
         match_at f r (last_char pre None) (String.length pre) rest = None) /\
      scan_ok f r whole (m_end m) ms'
  end.

(** The schemes the URL pattern knows. *)
Definition schemes : list string :=
  ["http"; "https"; "telnet"; "gopher"; "file"; "wais"; "ftp"].

(** A character that neither ends an attribute value nor is whitespace. *)
Definition attribute_safe (c : ascii) : bool := negb (is_space c || markup_char c).

(** What follows [name] on the first line of [s] that begins with it, through
    the end of [s]; [bol] tells whether [s] starts a line. *)
Fixpoint after_field (ci : bool) (name : string) (bol : bool) (s : string) : option string :=
  if (bol && starts_with ci name s)%bool then Some (drop (String.length name) s)
  else
    match s with
    | EmptyString => None
    | String c s' => after_field ci name (Ascii.eqb c nl) s'
    end.



(** [s] without its leading spaces. *)
Fixpoint skip_spaces (s : string) : string :=
  match s with
  | String c s' => if Ascii.eqb c " " then skip_spaces s' else s
  | EmptyString => EmptyString
  end.

Ltac each_char c := destruct c as [[] [] [] [] [] [] [] []].

(* ================================================================= *)
(** * Properties *)

(** ** Characters *)

Lemma same_char_space (ci : bool) (c : ascii) :
  same_char ci " " c = Ascii.eqb " " c.
Proof. destruct ci; [each_char c; reflexivity | reflexivity]. Qed.

Lemma same_char_nl (ci : bool) (a : ascii) :
  same_char ci a nl = Ascii.eqb a nl.
Proof. destruct ci; [each_char a; reflexivity | reflexivity]. Qed.

Lemma lit_ok_same (f : flags) (a c : ascii) :
  lit_ok f a c = same_char (IGNORECASE f) a c.
Proof. reflexivity. Qed.

Lemma atom_ok_sp (f : flags) (c : ascii) : atom_ok f sp c = Ascii.eqb " " c.
Proof. simpl. rewrite lit_ok_same. apply same_char_space. Qed.

Lemma space_is_space (c : ascii) : Ascii.eqb " " c = true -> is_space c = true.
Proof. intro H. apply Ascii.eqb_eq in H. subst c. reflexivity. Qed.

(** ** Strings *)

Lemma length_app (u v : string) :
  String.length (u ++ v) = String.length u + String.length v.
Proof. induction u as [|c u IH]; simpl; [reflexivity | now rewrite IH]. Qed.

Lemma app_assoc_s (u v w : string) : ((u ++ v) ++ w = u ++ (v ++ w))%string.
Proof. induction u as [|c u IH]; simpl; [reflexivity | now rewrite IH]. Qed.

Lemma app_empty_r (u : string) : (u ++ "" = u)%string.
Proof. induction u as [|c u IH]; simpl; [reflexivity | now rewrite IH]. Qed.

Lemma substring_skip (pre s : string) (i n : nat) :
  substring (String.length pre + i) n (pre ++ s) = substring i n s.
Proof. induction pre as [|c pre IH]; simpl; [reflexivity | exact IH]. Qed.

Lemma substring_prefix (v r : string) :
  substring 0 (String.length v) (v ++ r) = v.
Proof.
  induction v as [|c v IH]; simpl.
  - destruct r; reflexivity.
  - now rewrite IH.
Qed.

Lemma slice_middle (pre v r : string) (a b : nat) :
  a = String.length pre -> b = String.length pre + String.length v ->
  slice a b (pre ++ v ++ r) = v.
Proof.
  intros -> ->. unfold slice.
  replace (String.length pre + String.length v - String.length pre)
    with (String.length v) by lia.
  rewrite <- (Nat.add_0_r (String.length pre)) at 1.
  rewrite substring_skip. apply substring_prefix.
Qed.

Lemma drop_app (pre s : string) : drop (String.length pre) (pre ++ s) = s.
Proof. induction pre as [|c pre IH]; simpl; [reflexivity | exact IH]. Qed.

Lemma drop_slice (s : string) (a : nat) : slice a (String.length s) s = drop a s.
Proof.
  unfold slice. revert a. induction s as [|c s IH]; intros [|a]; simpl; try reflexivity.
  - f_equal. specialize (IH 0). rewrite Nat.sub_0_r in IH. simpl in IH.
    destruct s; simpl in *; [reflexivity | exact IH].
  - apply IH.
Qed.

Lemma contains_app (needle pre post : string) :
  contains needle (pre ++ needle ++ post) = true.
Proof.
  induction pre as [|c pre IH]; simpl.
  - assert (H : prefix needle (needle ++ post) = true).
    { clear. induction needle as [|a n IH]; simpl; [destruct post; reflexivity|].
      destruct (ascii_dec a a); [exact IH | contradiction]. }
    destruct (needle ++ post)%string; simpl in *; rewrite H; reflexivity.
  - rewrite IH. apply orb_true_r.
Qed.

(** ** The matcher *)

Lemma eat_some (f : flags) (p : string) :
  forall prev pos rest,
    starts_with (IGNORECASE f) p rest = true ->
    exists prev',
      eat f p prev pos rest = Some (prev', pos + String.length p, drop (String.length p) rest).
Proof.
  induction p as [|a p IH]; intros prev pos rest H; simpl.
  - exists prev. now rewrite Nat.add_0_r.
  - destruct rest as [|c rest]; simpl in H; [discriminate|].
    apply andb_true_iff in H as [Hc Hp].
    rewrite lit_ok_same, Hc.
    destruct (IH (Some c) (S pos) rest Hp) as [prev' E].
    exists prev'. rewrite E. do 3 f_equal. lia.
Qed.

Lemma eat_none (f : flags) (p : string) :
  forall prev pos rest,
    starts_with (IGNORECASE f) p rest = false -> eat f p prev pos rest = None.
Proof.
  induction p as [|a p IH]; intros prev pos rest H; simpl in *.
  - discriminate.
  - destruct rest as [|c rest]; [reflexivity|].
    rewrite lit_ok_same. destruct (same_char (IGNORECASE f) a c); simpl in H.
    + now apply IH.
    + reflexivity.
Qed.

(** A greedy run that can take all of [v] and no more hands the
    continuation the text behind [v] first. *)
Lemma star_all (ok : ascii -> bool) (k : cont) (a : answer) (r : string) :
  match r with EmptyString => True | String c _ => ok c = false end ->
  forall v g prev pos,
    forallb ok (chars v) = true ->
    k g (last_char v prev) (pos + String.length v) r = Some a ->
    star ok g prev pos (v ++ r) k = Some a.
Proof.
  intros Hr. induction v as [|c v IH]; intros g prev pos Hv Hk; simpl in *.
  - rewrite Nat.add_0_r in Hk. destruct r as [|c r]; simpl; [exact Hk|].
    now rewrite Hr.
  - apply andb_true_iff in Hv as [Hc Hv]. rewrite Hc.
    rewrite (IH g (Some c) (S pos) Hv); [reflexivity|].
    now rewrite <- Nat.add_succ_comm in Hk.
Qed.

(** A successful greedy run took some prefix [v] that the class accepts and
    the continuation succeeded behind it. *)
Lemma star_inv (ok : ascii -> bool) (k : cont) (a : answer) :
  forall rest g prev pos,
    star ok g prev pos rest k = Some a ->
    exists v r,
      rest = (v ++ r)%string /\ forallb ok (chars v) = true /\
      k g (last_char v prev) (pos + String.length v) r = Some a.
Proof.
  induction rest as [|c rest IH]; intros g prev pos H; simpl in H.
  - exists EmptyString, EmptyString. simpl. now rewrite Nat.add_0_r.
  - assert (Hhere : k g prev pos (String c rest) = Some a ->
                    exists v r, String c rest = (v ++ r)%string /\
                      forallb ok (chars v) = true /\
                      k g (last_char v prev) (pos + String.length v) r = Some a).
    { intro Hk. exists EmptyString, (String c rest). simpl. now rewrite Nat.add_0_r. }
    destruct (ok c) eqn:Hc; [|auto].
    destruct (star ok g (Some c) (S pos) rest k) eqn:E; [|auto].
    injection H as ->.
    destruct (IH _ _ _ E) as (v & r & -> & Hv & Hk).
    exists (String c v), r. simpl. rewrite Hc, Hv.
    repeat split. now rewrite <- Nat.add_succ_comm.
Qed.

(** A greedy run before a continuation that cannot fail does not fail. *)
Lemma star_some (ok : ascii -> bool) (k : cont) :
  (forall g prev pos rest, k g prev pos rest <> None) ->
  forall rest g prev pos, star ok g prev pos rest k <> None.
Proof.
  intros Hk. induction rest as [|c rest IH]; intros g prev pos; simpl.
  - apply Hk.
  - destruct (ok c); [|apply Hk].
    destruct (star ok g (Some c) (S pos) rest k) eqn:E; [discriminate|].
    now apply IH in E.
Qed.

(** An attempt that succeeds at the cursor or further on makes the search succeed. *)
Lemma search_from_some (f : flags) (r : regex) :
  forall pre rest prev pos,
    match_at f r (last_char pre prev) (pos + String.length pre) rest <> None ->
    search_from f r prev pos (pre ++ rest) <> None.
Proof.
  induction pre as [|c pre IH]; intros rest prev pos H; simpl in *.
  - rewrite Nat.add_0_r in H.
    destruct rest; simpl; destruct (match_at f r prev pos _); congruence.
  - destruct (match_at f r prev pos _); [discriminate|].
    apply IH. now rewrite Nat.add_succ_comm.
Qed.

(** A successful search succeeded as an attempt at some offset. *)
Lemma search_from_inv (f : flags) (r : regex) (m : rmatch) :
  forall s prev pos,
    search_from f r prev pos s = Some m ->
    exists pre rest,
      s = (pre ++ rest)%string /\
      match_at f r (last_char pre prev) (pos + String.length pre) rest = Some m.
Proof.
  induction s as [|c s IH]; intros prev pos H; simpl in H.
  - exists EmptyString, EmptyString. simpl. rewrite Nat.add_0_r.
    destruct (match_at f r prev pos EmptyString); [exact (conj eq_refl H) | discriminate].
  - destruct (match_at f r prev pos (String c s)) eqn:E.
    + exists EmptyString, (String c s). simpl. rewrite Nat.add_0_r. split; congruence.
    + destruct (IH _ _ H) as (pre & rest & -> & Hm).
      exists (String c pre), rest. simpl. split; [reflexivity|].
      now rewrite <- Nat.add_succ_comm.
Qed.

Lemma forallb_same {A : Type} (p q : A -> bool) (l : list A) :
  (forall x, p x = q x) -> forallb p l = forallb q l.
Proof. intro H. induction l as [|x l IH]; simpl; [reflexivity | now rewrite H, IH]. Qed.

Lemma slice_empty (a : nat) (s : string) : slice a a s = EmptyString.
Proof.
  unfold slice. rewrite Nat.sub_diag. revert a.
  induction s as [|c s IH]; intros [|a]; simpl; auto.
Qed.

(** ** Lines *)

Lemma lines_eq (s : string) : lines s = first_line s :: tl (lines s).
Proof.
  unfold first_line. destruct s as [|c s]; simpl; [reflexivity|].
  destruct (Ascii.eqb c nl); [reflexivity|]. destruct (lines s); reflexivity.
Qed.

Lemma first_line_cons (c : ascii) (s : string) :
  first_line (String c s) = if Ascii.eqb c nl then EmptyString else String c (first_line s).
Proof.
  unfold first_line. simpl. destruct (Ascii.eqb c nl); [reflexivity|].
  rewrite (lines_eq s). reflexivity.
Qed.

Lemma tl_lines_cons (c : ascii) (s : string) :
  tl (lines (String c s)) = if Ascii.eqb c nl then lines s else tl (lines s).
Proof.
  simpl. destruct (Ascii.eqb c nl); [reflexivity|]. rewrite (lines_eq s). reflexivity.
Qed.

Lemma first_line_split (s : string) :
  exists r, s = (first_line s ++ r)%string /\ line_end r /\ no_nl (first_line s) = true.
Proof.
  induction s as [|c s (r & E & Hr & Hn)].
  - exists EmptyString. repeat split.
  - rewrite first_line_cons. destruct (Ascii.eqb c nl) eqn:Hc.
    + exists (String c s). repeat split. simpl. now apply Ascii.eqb_eq.
    + exists r. simpl. rewrite <- E. repeat split; [exact Hr|].
      unfold no_nl in *. simpl. now rewrite Hc.
Qed.

Lemma starts_with_first_line (ci : bool) (name : string) :
  no_nl name = true ->
  forall s, starts_with ci name (first_line s) = starts_with ci name s.
Proof.
  unfold no_nl. induction name as [|a name IH]; intros Hn s; simpl in *; [reflexivity|].
  apply andb_true_iff in Hn as [Ha Hn].
  destruct s as [|c s]; [reflexivity|].
  rewrite first_line_cons. destruct (Ascii.eqb c nl) eqn:Hc.
  - apply Ascii.eqb_eq in Hc. subst c. rewrite same_char_nl.
    now apply negb_true_iff in Ha as ->.
  - now rewrite IH.
Qed.

Lemma drop_first_line (ci : bool) (name : string) :
  no_nl name = true ->
  forall s, starts_with ci name s = true ->
    drop (String.length name) (first_line s) = first_line (drop (String.length name) s).
Proof.
  unfold no_nl. induction name as [|a name IH]; intros Hn s H; simpl in *; [reflexivity|].
  apply andb_true_iff in Hn as [Ha Hn].
  destruct s as [|c s]; [discriminate|].
  apply andb_true_iff in H as [Hc H].
  rewrite first_line_cons. destruct (Ascii.eqb c nl) eqn:E.
  - apply Ascii.eqb_eq in E. subst c. rewrite same_char_nl in Hc.
    apply negb_true_iff in Ha. congruence.
  - now apply IH.
Qed.

Lemma starts_with_split (ci : bool) (name : string) :
  forall s, starts_with ci name s = true ->
    exists n', s = (n' ++ drop (String.length name) s)%string /\
               String.length n' = String.length name.
Proof.
  induction name as [|a name IH]; intros s H; simpl in *.
  - now exists EmptyString.
  - destruct s as [|c s]; [discriminate|].
    apply andb_true_iff in H as [_ H].
    destruct (IH s H) as (n' & E & L).
    exists (String c n'). simpl. split; [now rewrite <- E | now rewrite L].
Qed.

(** ** Field lines *)

Section Field.

Variable f : flags.
Hypothesis Hmulti : MULTILINE f = true.
Hypothesis Hdot : DOTALL f = false.

Lemma atom_ok_dot (c : ascii) : atom_ok f ADot c = negb (Ascii.eqb c nl).
Proof. simpl. now rewrite Hdot. Qed.

Lemma at_eol_line_end (r : string) : line_end r -> at_eol f r = true.
Proof.
  destruct r as [|c r]; simpl; [reflexivity|]. intros ->.
  now rewrite Hmulti, Ascii.eqb_refl.
Qed.

(** The run of the dot takes the line to its end. *)
Lemma dot_run (v r : string) (g : capture) (prev : option ascii) (pos : nat) :
  no_nl v = true -> line_end r ->
  exec f (Group (Star ADot) +++ Eol) g prev pos (v ++ r) finish
  = Some (pos + String.length v, Some (pos, pos + String.length v)).
Proof.
  intros Hv Hr. cbn [exec].
  apply star_all.
  - destruct r as [|c r]; [exact Logic.I|]. simpl in Hr. subst c.
    now rewrite atom_ok_dot.
  - unfold no_nl in Hv. rewrite <- Hv. apply forallb_same.
    intro c. now rewrite atom_ok_dot.
  - cbn [exec]. now rewrite at_eol_line_end.
Qed.

(** Behind the field name the pattern reads the rest of the line; group 1
    is that rest less one leading space. *)
Lemma field_tail_exec (pre v r : string) (g : capture) (prev : option ascii) :
  no_nl v = true -> line_end r ->
  exists e a b,
    exec f field_tail g prev (String.length pre) (v ++ r) finish = Some (e, Some (a, b))
    /\ slice a b (pre ++ v ++ r) = less_space v.
Proof.
  intros Hv Hr. unfold field_tail.
  pose proof (dot_run v r) as Hrun.
  remember (Group (Star ADot) +++ Eol) as line eqn:Eline.
  cbn [exec].
  destruct v as [|c v].
  - (* nothing behind the name *)
    assert (E : exec f line g prev (String.length pre) ("" ++ r) finish
                = Some (String.length pre + 0, Some (String.length pre, String.length pre + 0)))
      by (now apply Hrun).
    assert (E' : match ("" ++ r)%string with
                 | String c rest' =>
                     if atom_ok f sp c
                     then exec f line g (Some c) (S (String.length pre)) rest' finish
                     else None
                 | EmptyString => None
                 end = None).
    { destruct r as [|c r]; [reflexivity|]. simpl in Hr. subst c.
      cbn [append]. now rewrite atom_ok_sp. }
    rewrite E', E. do 3 eexists. split; [reflexivity|].
    rewrite Nat.add_0_r. apply slice_empty.
  - assert (Hv' : no_nl v = true).
    { unfold no_nl in *. simpl in Hv. now apply andb_true_iff in Hv as [_ Hv]. }
    cbn [append]. rewrite atom_ok_sp. cbn [less_space].
    destruct (Ascii.eqb " " c) eqn:Hc.
    + apply Ascii.eqb_eq in Hc. subst c.
      rewrite Eline, (dot_run v r) by assumption.
      change (Ascii.eqb " " " ") with true. cbv iota.
      do 3 eexists. split; [reflexivity|].
      change (pre ++ String " " (v ++ r))%string with (pre ++ (String " " "") ++ v ++ r)%string.
      rewrite <- app_assoc_s.
      apply slice_middle; rewrite ?length_app; simpl; lia.
    + rewrite Ascii.eqb_sym, Hc.
      pose proof (Hrun g prev (String.length pre) Hv Hr) as E.
      cbn [append] in E. rewrite E.
      do 3 eexists. split; [reflexivity|].
      apply (slice_middle pre (String c v)); simpl; lia.
Qed.

Variable name : string.
Hypothesis Hname : no_nl name = true.

Lemma at_bol_after (c : ascii) : at_bol f (Some c) = Ascii.eqb c nl.
Proof. simpl. now rewrite Hmulti. Qed.

(** Away from a line start, or before a text that does not begin with the
    name, an anchored pattern fails. *)
Lemma anchored_match_none (tail : regex) (prev : option ascii) (pos : nat) (s : string) :
  (at_bol f prev && starts_with (IGNORECASE f) name s)%bool = false ->
  match_at f (Bol +++ Str name +++ tail) prev pos s = None.
Proof.
  intro H. unfold match_at. cbn [exec].
  destruct (at_bol f prev); [|reflexivity].
  simpl in H. now rewrite (eat_none f name prev pos s H).
Qed.

Lemma anchored_search_none (tail : regex) :
  forall s prev pos,
    existsb (starts_with (IGNORECASE f) name) (if at_bol f prev then lines s else tl (lines s)) = false ->
    search_from f (Bol +++ Str name +++ tail) prev pos s = None.
Proof.
  induction s as [|c s IH]; intros prev pos H.
  - cbn [search_from]. rewrite anchored_match_none; [reflexivity|].
    destruct (at_bol f prev); [|reflexivity].
    simpl in H. now apply orb_false_iff in H as [-> _].
  - cbn [search_from]. rewrite anchored_match_none.
    + apply IH. rewrite at_bol_after, <- tl_lines_cons.
      destruct (at_bol f prev); [|exact H].
      rewrite lines_eq in H. cbn [existsb] in H. now apply orb_false_iff in H as [_ ->].
    + destruct (at_bol f prev); [|reflexivity].
      rewrite lines_eq in H. cbn [existsb] in H. apply orb_false_iff in H as [H _].
      now rewrite starts_with_first_line in H.
Qed.

(** At a line start, before a text that begins with the name, the field
    pattern matches, and group 1 is the value on that line. *)
Lemma field_match_at (pre s : string) (prev : option ascii) :
  at_bol f prev = true -> starts_with (IGNORECASE f) name s = true ->
  exists m,
    match_at f (field_regex name) prev (String.length pre) s = Some m /\
    group1 (pre ++ s) m = field_value name (first_line s).
Proof.
  intros Hb Hs. unfold match_at, field_regex. fold field_tail.
  generalize field_tail_exec. intro Htail.
  remember field_tail as tail. cbn [exec]. rewrite Hb.
  destruct (eat_some f name prev (String.length pre) s Hs) as [prev' ->].
  destruct (starts_with_split (IGNORECASE f) name s Hs) as (n' & Es & Ln).
  destruct (first_line_split (drop (String.length name) s)) as (r & Ex & Hr & Hv).
  destruct (Htail (pre ++ n')%string _ r None prev' Hv Hr) as (e & a & b & E & Hslice).
  rewrite length_app, Ln, <- Ex in E. rewrite E.
  eexists. split; [reflexivity|].
  unfold group1, field_value. cbn [m_span1].
  rewrite (drop_first_line (IGNORECASE f) name Hname s Hs), <- Hslice.
  f_equal. rewrite app_assoc_s. f_equal. now rewrite <- Ex.
Qed.

Lemma append_cons (pre : string) (c : ascii) (s : string) :
  (pre ++ String c s = (pre ++ String c EmptyString) ++ s)%string.
Proof. now rewrite app_assoc_s. Qed.

(** The search finds the first line that begins with the name. *)
Lemma field_search_from :
  forall s pre prev,
    option_map (group1 (pre ++ s))
      (search_from f (field_regex name) prev (String.length pre) s)
    = option_map (field_value name)
        (find (starts_with (IGNORECASE f) name) (if at_bol f prev then lines s else tl (lines s))).
Proof.
  induction s as [|c s IH]; intros pre prev; cbn [search_from].
  - destruct (at_bol f prev && starts_with (IGNORECASE f) name "")%bool eqn:H.
    + apply andb_true_iff in H as [Hb Hs].
      destruct (field_match_at pre "" prev Hb Hs) as (m & -> & Hg).
      rewrite Hb. simpl. rewrite Hs. simpl. now rewrite Hg.
    + unfold field_regex. rewrite anchored_match_none by exact H.
      destruct (at_bol f prev); [|reflexivity].
      simpl in *. now rewrite H.
  - destruct (at_bol f prev && starts_with (IGNORECASE f) name (String c s))%bool eqn:H.
    + apply andb_true_iff in H as [Hb Hs].
      destruct (field_match_at pre (String c s) prev Hb Hs) as (m & -> & Hg).
      rewrite Hb, lines_eq. simpl find.
      rewrite starts_with_first_line, Hs by exact Hname. simpl. now rewrite Hg.
    + unfold field_regex at 1. rewrite anchored_match_none by exact H.
      rewrite append_cons.
      replace (S (String.length pre)) with (String.length (pre ++ String c "")).
      2:{ rewrite length_app. simpl. lia. }
      rewrite IH, at_bol_after, <- tl_lines_cons.
      destruct (at_bol f prev); [|reflexivity].
      simpl in H. rewrite lines_eq. simpl find.
      now rewrite starts_with_first_line, H by exact Hname.
Qed.

Lemma field_search (s : string) :
  option_map (group1 s) (re_search f (field_regex name) s)
  = option_map (field_value name) (first_line_with (IGNORECASE f) name s).
Proof. exact (field_search_from s EmptyString None). Qed.

Lemma find_existsb {A : Type} (p : A -> bool) (l : list A) :
  is_some (find p l) = existsb p l.
Proof. induction l as [|x l IH]; simpl; [reflexivity|]. destruct (p x); auto. Qed.

Lemma field_search_some (s : string) :
  is_some (re_search f (field_regex name) s) = has_line (IGNORECASE f) name s.
Proof.
  unfold has_line. rewrite <- find_existsb.
  pose proof (field_search s) as H. unfold first_line_with in H.
  destruct (re_search f (field_regex name) s), (find (starts_with (IGNORECASE f) name) (lines s));
    simpl in *; congruence.
Qed.

End Field.

(** ** The item parser *)

Lemma chars_app (u v : string) : chars (u ++ v) = chars u ++ chars v.
Proof. induction u as [|c u IH]; simpl; [reflexivity | now rewrite IH]. Qed.

(** The blank-item test of line 51 accepts only spaces and one final newline. *)
Lemma blank_item_inv (block : string) :
  re_match no_flags blank_item_regex block <> None -> whitespace_only block = true.
Proof.
  unfold re_match, match_at, blank_item_regex. cbn [exec]. intro H.
  destruct (star _ _ _ _ _ _) as [a|] eqn:E; [clear H | congruence].
  apply star_inv in E as (v & r & -> & Hv & Hk).
  unfold whitespace_only. rewrite chars_app, forallb_app. apply andb_true_iff. split.
  - clear Hk. induction v as [|c v IH]; simpl in *; [reflexivity|].
    apply andb_true_iff in Hv as [Hc Hv]. rewrite (IH Hv), andb_true_r.
    apply space_is_space. now rewrite <- (atom_ok_sp no_flags).
  - destruct r as [|c [|d r]]; simpl in *; [reflexivity | | ].
    + destruct (Ascii.eqb c nl) eqn:Hc; [|discriminate].
      apply Ascii.eqb_eq in Hc. now subst c.
    + now rewrite andb_false_r in Hk.
Qed.



Lemma is_some_none {A : Type} (o : option A) : is_some o = false -> o = None.
Proof. destruct o; [discriminate | reflexivity]. Qed.

Lemma not_none_is_some {A : Type} (o : option A) : o <> None -> is_some o = true.
Proof. destruct o; [reflexivity | congruence]. Qed.

Lemma title_search_none (block : string) :
  has_line true "title:" block = false -> re_search MI title_regex block = None.
Proof.
  intro H. apply is_some_none.
  unfold title_regex. now rewrite (field_search_some MI eq_refl eq_refl "title:" eq_refl).
Qed.

Lemma imgurl_search_none (block : string) :
  has_line false "img-url:" block = false -> re_search M imgurl_regex block = None.
Proof.
  intro H. apply is_some_none.
  unfold imgurl_regex. now rewrite (field_search_some M eq_refl eq_refl "img-url:" eq_refl).
Qed.

Lemma body_search_none (block : string) :
  has_line true "text:" block = false -> re_search MIS body_regex block = None.
Proof.
  intro H. unfold re_search, body_regex.
  now apply (anchored_search_none MIS eq_refl "text:" eq_refl).
Qed.

Lemma title_missing_contains (block : string) :
  match title_missing block with
  | ValueError msg => contains block msg = true
  | KeyError _ => False
  end.
Proof.
  unfold title_missing.
  change ("Title could not be found for the following item:" ++ String nl block ++ String nl "")%string
    with (("Title could not be found for the following item:" ++ String nl "")
            ++ block ++ String nl "")%string.
  apply contains_app.
Qed.

Lemma body_missing_contains (block : string) :
  match body_missing block with
  | ValueError msg => contains block msg = true
  | KeyError _ => False
  end.
Proof.
  unfold body_missing.
  change ("Text body could not be found for the following item:" ++ String nl block ++ String nl "")%string
    with (("Text body could not be found for the following item:" ++ String nl "")
            ++ block ++ String nl "")%string.
  apply contains_app.
Qed.

(** What [parse_item] does with a block that is neither blank nor an image header. *)
Lemma parse_item_fields (self : aaswitems) (block : string) :
  whitespace_only block = false ->
  has_line false "img-url:" block = false ->
  parse_item self block =
    match re_search MI title_regex block with
    | None => Raise (title_missing block)
    | Some mtitle =>
        match re_search MIS body_regex block with
        | Some mbody =>
            body <- parsedstr_init (rstrip (group1 block mbody))
                      (isjob (rstrip (group1 block mtitle))) ;;
            Ok (Aaswitems
                  (items self ++
                     [Item (rstrip (group1 block mtitle))
                        (option_map (group1 block) (re_search MI from_regex block)) body])
                  (image_url self) (image_caption self))
        | None => Raise (body_missing block)
        end
    end.
Proof.
  intros Hws Himg. unfold parse_item.
  destruct (re_match no_flags blank_item_regex block) eqn:E.
  - assert (H : whitespace_only block = true) by (apply blank_item_inv; congruence).
    congruence.
  - simpl is_some. cbv iota. now rewrite (imgurl_search_none block Himg).
Qed.

Lemma parse_items_raise (block : string) :
  (forall self, exists e, parse_item self block = Raise e) ->
  forall blocks self, In block blocks -> exists e, parse_items self blocks = Raise e.
Proof.
  intros Hb. induction blocks as [|b blocks IH]; intros self Hin; [contradiction|].
  simpl. destruct Hin as [-> | Hin].
  - destruct (Hb self) as [e ->]. now exists e.
  - destruct (parse_item self b) as [self'|e]; simpl; [now apply IH | now exists e].
Qed.

Lemma aaswitems_init_raise (block fulltext finaltext : string) :
  (forall self, exists e, parse_item self block = Raise e) ->
  In block (re_split no_flags delimiter_regex fulltext) \/
  In block (re_split no_flags delimiter_regex finaltext) ->
  exists e, aaswitems_init fulltext finaltext = Raise e.
Proof.
  intros Hb Hin. unfold aaswitems_init, parse_filetext.
  destruct Hin as [Hin | Hin].
  - destruct (parse_items_raise block Hb _ empty_aaswitems Hin) as [e ->]. now exists e.
  - destruct (parse_items empty_aaswitems _) as [self|e]; simpl; [|now exists e].
    now apply (parse_items_raise block Hb).
Qed.

Lemma main_aborts (read_file : string -> string)
  (build_newsletter : aaswitems -> string * mixedstr) (argv : list string) :
  (forall prog fname, argv = [prog; fname] ->
     exists e, aaswitems_init (read_file fname) (read_file final_text_filename) = Raise e) ->
  how (main read_file build_newsletter argv) <> Returned /\
  written (main read_file build_newsletter argv) = [].
Proof.
  intro H. unfold main.
  destruct argv as [|prog [|fname [|x argv]]]; try (split; [discriminate | reflexivity]).
  destruct (is_some _); [split; [discriminate | reflexivity]|].
  destruct (H prog fname eq_refl) as [e ->]. split; [discriminate | reflexivity].
Qed.

(** C4.  A block that holds a character other than whitespace and no line
    beginning [img-url:] makes [parse_item] raise when no line begins with
    [title:], and likewise when no line begins with [text:] (both up to
    case).  The exception is the [ValueError] of line 76, or that of line 90
    when a title line is there; its message holds the raw block.  A run
    that meets the block in either file does not return and writes no file. *)
Theorem missing_field_raises (self : aaswitems) (block : string) :
  whitespace_only block = false ->
  has_line false "img-url:" block = false ->
  has_line true "title:" block = false \/ has_line true "text:" block = false ->
  (exists msg, parse_item self block = Raise (ValueError msg) /\ contains block msg = true)
  /\ (has_line true "title:" block = false ->
      parse_item self block = Raise (title_missing block))
  /\ (has_line true "title:" block = true ->
      parse_item self block = Raise (body_missing block))
  /\ forall read_file build_newsletter prog fname,
       In block (re_split no_flags delimiter_regex (read_file fname)) \/
       In block (re_split no_flags delimiter_regex (read_file final_text_filename)) ->
       how (main read_file build_newsletter [prog; fname]) <> Returned /\
       written (main read_file build_newsletter [prog; fname]) = [].
Proof.
  intros Hws Himg Hmiss.
  pose proof (parse_item_fields self block Hws Himg) as E.
  assert (Ht : has_line true "title:" block = false ->
               parse_item self block = Raise (title_missing block)).
  { intro H. now rewrite E, (title_search_none block H). }
  assert (Hb : has_line true "title:" block = true ->
               parse_item self block = Raise (body_missing block)).
  { intro H. destruct Hmiss as [H' | H']; [congruence|].
    rewrite E, (body_search_none block H').
    assert (Hs : is_some (re_search MI title_regex block) = true)
      by (rewrite <- H; exact (field_search_some MI eq_refl eq_refl "title:" eq_refl block)).
    now destruct (re_search MI title_regex block). }
  assert (Hraise : forall self', exists msg,
             parse_item self' block = Raise (ValueError msg) /\ contains block msg = true).
  { intro self'. rewrite (parse_item_fields self' block Hws Himg).
    destruct (has_line true "title:" block) eqn:H.
    - destruct Hmiss as [H' | H']; [congruence|].
      rewrite (body_search_none block H').
      destruct (re_search MI title_regex block).
      + eexists. split; [reflexivity | exact (body_missing_contains block)].
      + eexists. split; [reflexivity | exact (title_missing_contains block)].
    - rewrite (title_search_none block H).
      eexists. split; [reflexivity | exact (title_missing_contains block)]. }
  split; [apply Hraise|]. split; [exact Ht|]. split; [exact Hb|].
  intros read_file build_newsletter prog fname Hin.
  apply main_aborts. intros prog' fname' [= <- <-].
  apply (aaswitems_init_raise block); [|exact Hin].
  intro self'. destruct (Hraise self') as (msg & -> & _). now eexists.
Qed.

Lemma missing_field_raises_witness :
  whitespace_only "text: hello" = false /\
  has_line false "img-url:" "text: hello" = false /\
  has_line true "title:" "text: hello" = false /\
  parse_item empty_aaswitems "text: hello" = Raise (title_missing "text: hello") /\
  written (main (fun _ => "text: hello") (fun _ => (EmptyString, []))
             ["aasw.py"; "draft.jaml"]) = [].
Proof.
  destruct (missing_field_raises empty_aaswitems "text: hello"
              eq_refl eq_refl (or_introl eq_refl)) as (_ & Ht & _ & Hrun).
  split; [reflexivity|]. split; [reflexivity|]. split; [reflexivity|].
  split; [exact (Ht eq_refl)|].
  apply (Hrun (fun _ => "text: hello") (fun _ => (EmptyString, [])) "aasw.py" "draft.jaml").
  left. left. reflexivity.
Defined.



(** A block of spaces, with or without one final newline, is skipped. *)
Lemma spaces_block_skipped (self : aaswitems) (block : string) :
  all_spaces block = true ->
  parse_item self block = Ok self /\
  parse_item self (block ++ String nl EmptyString) = Ok self.
Proof.
  intro H.
  assert (Hok : forallb (atom_ok no_flags sp) (chars block) = true).
  { unfold all_spaces in H. rewrite <- H. apply forallb_same. intro c. apply atom_ok_sp. }
  unfold parse_item, re_match, match_at, blank_item_regex. cbn [exec]. split.
  - rewrite <- (app_empty_r block) at 1.
    now rewrite (star_all _ _ (0 + String.length block, None) EmptyString Logic.I).
  - now rewrite (star_all _ _ (0 + String.length block, None) (String nl EmptyString) eq_refl).
Qed.

(** C5.  The block made of two newlines consists of whitespace only, yet it
    is not skipped: the test of line 51 accepts spaces and one final newline
    and nothing else, so the block goes on and raises the [ValueError] of
    line 76. *)
Theorem blank_lines_block_raises (self : aaswitems) :
  whitespace_only (String nl (String nl EmptyString)) = true /\
  parse_item self (String nl (String nl EmptyString))
  = Raise (title_missing (String nl (String nl EmptyString))).
Proof. split; reflexivity. Qed.

(** ** The job flag *)

Lemma star_here (ok : ascii -> bool) (k : cont) (g : capture) (prev : option ascii)
  (pos : nat) (rest : string) :
  k g prev pos rest <> None -> star ok g prev pos rest k <> None.
Proof.
  intro H. destruct rest as [|c rest]; simpl; [exact H|].
  destruct (ok c); [|exact H].
  now destruct (star ok g (Some c) (S pos) rest k).
Qed.

Lemma contains_ci_app (needle pre r : string) :
  starts_with true needle r = true -> contains_ci needle (pre ++ r) = true.
Proof.
  intro H. induction pre as [|c pre IH]; simpl.
  - destruct r; simpl; now rewrite H.
  - rewrite IH. apply orb_true_r.
Qed.

Lemma contains_ci_inv (needle hay : string) :
  contains_ci needle hay = true ->
  exists pre r, hay = (pre ++ r)%string /\ starts_with true needle r = true.
Proof.
  induction hay as [|c hay IH]; simpl; intro H.
  - rewrite orb_false_r in H. now exists EmptyString, EmptyString.
  - apply orb_true_iff in H as [H | H].
    + now exists EmptyString, (String c hay).
    + destruct (IH H) as (pre & r & -> & Hr). now exists (String c pre), r.
Qed.

Lemma job_match_inv (prev : option ascii) (pos : nat) (r : string) :
  match_at I job_regex prev pos r <> None ->
  exists v x, r = (v ++ x)%string /\ starts_with true "Job Opportunities" x = true.
Proof.
  unfold match_at, job_regex.
  remember (Str "Job Opportunities" +++ Star sp) as phrase eqn:Ep.
  cbn [exec]. intro H.
  destruct (star _ _ _ _ _ _) as [a|] eqn:E; [clear H | congruence].
  apply star_inv in E as (v & x & -> & _ & Hk).
  exists v, x. split; [reflexivity|].
  subst phrase. cbn [exec] in Hk.
  destruct (starts_with true "Job Opportunities" x) eqn:Hs; [reflexivity|].
  now rewrite (eat_none I "Job Opportunities" _ _ x Hs) in Hk.
Qed.

Lemma job_match_here (prev : option ascii) (pos : nat) (x : string) :
  starts_with true "Job Opportunities" x = true ->
  match_at I job_regex prev pos x <> None.
Proof.
  intro Hs. unfold match_at, job_regex.
  remember (Str "Job Opportunities" +++ Star sp) as phrase eqn:Ep.
  cbn [exec].
  assert (Hx : exec I phrase None prev pos x finish <> None).
  { subst phrase. cbn [exec].
    destruct (eat_some I "Job Opportunities" prev pos x Hs) as [p ->].
    apply star_some. discriminate. }
  pose proof (star_here (atom_ok I sp)
                (fun g' p' n' s' => exec I phrase g' p' n' s' finish)
                None prev pos x Hx) as Hstar.
  destruct (star _ _ _ _ _ _) as [[e g]|]; [discriminate | contradiction].
Qed.

Lemma lstrip_split (x : string) : exists ws, x = (ws ++ lstrip x)%string.
Proof.
  induction x as [|c x [ws IH]]; simpl.
  - now exists EmptyString.
  - destruct (is_space c).
    + exists (String c ws). simpl. now rewrite <- IH.
    + now exists EmptyString.
Qed.

Lemma rstrip_split (t : string) : exists ws, t = (rstrip t ++ ws)%string.
Proof.
  induction t as [|c t [ws IH]]; simpl.
  - now exists EmptyString.
  - destruct (rstrip t) as [|d r] eqn:E.
    + destruct (is_space c).
      * now exists (String c t).
      * exists ws. simpl in *. now rewrite <- IH.
    + exists ws. simpl in *. now rewrite <- IH.
Qed.

Lemma starts_with_app (ci : bool) (n : string) :
  forall x post, starts_with ci n x = true -> starts_with ci n (x ++ post) = true.
Proof.
  induction n as [|a n IH]; intros x post H; simpl in *; [reflexivity|].
  destruct x as [|c x]; [discriminate|]. simpl.
  apply andb_true_iff in H as [-> H]. now apply IH.
Qed.

Lemma contains_ci_app_r (n x post : string) :
  contains_ci n x = true -> contains_ci n (x ++ post) = true.
Proof.
  intro H. apply contains_ci_inv in H as (pre & r & -> & Hr).
  rewrite app_assoc_s. now apply contains_ci_app, starts_with_app.
Qed.

Lemma is_phrase_contains (phrase title : string) :
  is_phrase phrase title = true -> contains_ci phrase title = true.
Proof.
  unfold is_phrase, equal_ci, strip. intro H. apply andb_true_iff in H as [H _].
  destruct (rstrip_split title) as [ws' E]. rewrite E.
  apply contains_ci_app_r.
  destruct (lstrip_split (rstrip title)) as [ws E']. rewrite E'.
  now apply contains_ci_app.
Qed.

(** C8, amended.  The job flag of a title is set exactly when the title
    contains the phrase [Job Opportunities] up to case, anywhere and
    whatever surrounds it; in particular it is set when the title is the
    phrase up to case and surrounding whitespace. *)
Theorem isjob_iff_contains (title : string) :
  (isjob title = true <-> contains_ci "Job Opportunities" title = true) /\
  (is_phrase "Job Opportunities" title = true -> isjob title = true).
Proof.
  assert (Hiff : isjob title = true <-> contains_ci "Job Opportunities" title = true).
  { unfold isjob, re_search. split.
    - intro H. destruct (search_from I job_regex None 0 title) as [m|] eqn:E; [|discriminate].
      apply search_from_inv in E as (pre & rest & -> & Hm).
      destruct (job_match_inv (last_char pre None) (0 + String.length pre) rest)
        as (v & x & -> & Hx); [congruence|].
      rewrite <- app_assoc_s. now apply contains_ci_app.
    - intro H. apply contains_ci_inv in H as (pre & x & -> & Hx).
      apply not_none_is_some, search_from_some. now apply job_match_here. }
  split; [exact Hiff|]. intro H. now apply Hiff, is_phrase_contains.
Qed.

Lemma isjob_iff_contains_witness :
  is_phrase "Job Opportunities" "  job opportunities " = true /\
  isjob "  job opportunities " = true.
Proof.
  split; [reflexivity|].
  exact (proj2 (isjob_iff_contains "  job opportunities ") eq_refl).
Defined.

(** C8, as stated, fails: the flag is set for a title that is more than the
    phrase and the whitespace around it. *)
Lemma isjob_not_only_phrase :
  ~ (isjob "Summer Job Opportunities at NASA" = true <->
     is_phrase "Job Opportunities" "Summer Job Opportunities at NASA" = true).
Proof. intros [H _]. discriminate (H eq_refl). Qed.

(** ** The segment list *)

Lemma insert_by_start_perm (x : segment) (l : list segment) :
  Permutation (x :: l) (insert_by_start x l).
Proof.
  induction l as [|y l IH]; simpl; [reflexivity|].
  destruct (start x <=? start y)%nat; [reflexivity|].
  rewrite perm_swap. now apply perm_skip.
Qed.

Lemma sort_by_start_perm (l : list segment) : Permutation l (sort_by_start l).
Proof.
  induction l as [|x l IH]; simpl; [reflexivity|].
  rewrite <- insert_by_start_perm. now apply perm_skip.
Qed.

Lemma sort_by_start_Forall (P : segment -> Prop) (l : list segment) :
  Forall P l -> Forall P (sort_by_start l).
Proof. intro H. eapply Permutation_Forall; [apply sort_by_start_perm | exact H]. Qed.

Lemma paragraph_spans_built (s : string) : Forall (built s) (paragraph_spans s).
Proof.
  unfold paragraph_spans. apply Forall_map, Forall_forall. intros m _. left. now split.
Qed.

Lemma url_spans_built (s : string) : Forall (built s) (url_spans s).
Proof.
  unfold url_spans. apply Forall_map, Forall_forall. intros m _. right. left. now split.
Qed.

Lemma fill_gaps_built (s : string) :
  forall spans current_pos appended,
    Forall (built s) appended ->
    Forall (built s) (snd (fill_gaps s spans current_pos appended)).
Proof.
  induction spans as [|seg spans IH]; intros current_pos appended H; simpl; [exact H|].
  apply IH. destruct (current_pos <? start seg)%nat; [|exact H].
  apply Forall_app. split; [exact H|]. constructor; [|constructor].
  right. right. now split.
Qed.

Lemma segments_of_built (s : string) : Forall (built s) (segments_of s).
Proof.
  unfold segments_of.
  assert (Hfound : Forall (built s) (paragraph_spans s ++ url_spans s)).
  { apply Forall_app. split; [apply paragraph_spans_built | apply url_spans_built]. }
  destruct (paragraph_spans s ++ url_spans s) as [|seg found] eqn:E; [constructor|].
  pose proof (fill_gaps_built s (sort_by_start (seg :: found)) 0 [] (Forall_nil _)) as Hgaps.
  destruct (fill_gaps s (sort_by_start (seg :: found)) 0 []) as [current_pos appended].
  apply sort_by_start_Forall. repeat (apply Forall_app; split).
  - now apply sort_by_start_Forall.
  - exact Hgaps.
  - destruct (current_pos <? String.length s)%nat; constructor; [|constructor].
    right. right. split; [reflexivity|]. simpl. now rewrite drop_slice.
Qed.

Lemma emit_built (s : string) (job : bool) (seg : segment) :
  built s seg -> exists nodes, emit job seg = Ok nodes.
Proof.
  unfold emit, get_value.
  intros [[-> _] | [[-> ->] | [-> ->]]]; simpl; eexists; reflexivity.
Qed.

Lemma emit_all_built (s : string) (job : bool) (segs : list segment) :
  Forall (built s) segs -> exists nodes, emit_all job segs = Ok nodes.
Proof.
  induction 1 as [|seg segs Hseg _ [rest IH]]; simpl.
  - now eexists.
  - destruct (emit_built s job seg Hseg) as [ns ->]. rewrite IH. simpl. now eexists.
Qed.

(** C9.  Whatever the string and the job flag, every segment of the resolved
    list has type [p], [u] or [t], and the constructor returns its nodes: the
    branch of line 261 that raises for an unknown type is never taken, nor
    is any other exception raised. *)
Theorem segment_types_known (s : string) (job : bool) :
  Forall known_type (segments_of (classified s job)) /\
  exists nodes, parsedstr_init s job = Ok nodes.
Proof.
  split.
  - eapply Forall_impl; [|apply segments_of_built].
    unfold known_type. intros seg [[H _] | [[H _] | [H _]]]; auto.
  - unfold parsedstr_init. eapply emit_all_built, segments_of_built.
Qed.



(** ** Group 1 *)

Lemma star_answer (ok : ascii -> bool) (k : cont) (a : answer) :
  forall rest g prev pos,
    star ok g prev pos rest k = Some a ->
    exists prev' pos' rest', k g prev' pos' rest' = Some a.
Proof.
  intros rest g prev pos H. apply star_inv in H as (v & r & _ & _ & H). eauto.
Qed.

Lemma lazy_star_answer (ok : ascii -> bool) (k : cont) (a : answer) :
  forall rest g prev pos,
    lazy_star ok g prev pos rest k = Some a ->
    exists prev' pos' rest', k g prev' pos' rest' = Some a.
Proof.
  induction rest as [|c rest IH]; intros g prev pos H; simpl in H.
  - destruct (k g prev pos EmptyString) eqn:E; [|discriminate]. injection H as ->. eauto.
  - destruct (k g prev pos (String c rest)) eqn:E.
    + injection H as ->. eauto.
    + destruct (ok c); [eauto | discriminate].
Qed.

(** The answer of a run comes from its continuation, entered with the same
    span of group 1 or with a span the run has set. *)
Lemma exec_answer (f : flags) (r : regex) :
  forall k g prev pos rest ans,
    exec f r g prev pos rest k = Some ans ->
    exists g' prev' pos' rest',
      k g' prev' pos' rest' = Some ans /\
      (g <> None -> g' <> None) /\ (sets_group r = true -> g' <> None).
Proof.
  induction r as [ | x | p | | | | r1 IHr1 r2 IHr2 | r1 IHr1 r2 IHr2 | r IHr
                   | x | x | x | r IHr | r IHr ];
    intros k g prev pos rest ans H; cbn [exec] in H; cbn [sets_group].
  - exists g, prev, pos, rest. repeat split; auto. discriminate.
  - destruct rest as [|c rest]; [discriminate|]. destruct (atom_ok f x c); [|discriminate].
    do 4 eexists. repeat split; eauto. discriminate.
  - destruct (eat f p prev pos rest) as [[[p' n'] s']|]; [|discriminate].
    do 4 eexists. repeat split; eauto. discriminate.
  - destruct (at_bol f prev); [|discriminate].
    do 4 eexists. repeat split; eauto. discriminate.
  - destruct (at_eol f rest); [|discriminate].
    do 4 eexists. repeat split; eauto. discriminate.
  - destruct (xorb _ _); [|discriminate].
    do 4 eexists. repeat split; eauto. discriminate.
  - apply IHr1 in H as (g1 & p1 & n1 & s1 & H & Hk1 & Hs1).
    apply IHr2 in H as (g2 & p2 & n2 & s2 & H & Hk2 & Hs2).
    exists g2, p2, n2, s2. repeat split; auto.
    intro Hor. apply orb_true_iff in Hor as [Hor | Hor]; auto.
  - destruct (exec f r1 g prev pos rest k) eqn:E.
    + injection H as ->. apply IHr1 in E as (g1 & p1 & n1 & s1 & H & Hk1 & Hs1).
      exists g1, p1, n1, s1. repeat split; auto.
      intro Hand. apply andb_true_iff in Hand as [Hand _]. auto.
    + apply IHr2 in H as (g1 & p1 & n1 & s1 & H & Hk1 & Hs1).
      exists g1, p1, n1, s1. repeat split; auto.
      intro Hand. apply andb_true_iff in Hand as [_ Hand]. auto.
  - destruct (exec f r g prev pos rest k) eqn:E.
    + injection H as ->. apply IHr in E as (g1 & p1 & n1 & s1 & H & Hk1 & _).
      exists g1, p1, n1, s1. repeat split; auto. discriminate.
    + do 4 eexists. repeat split; eauto. discriminate.
  - apply star_answer in H as (p' & n' & s' & H).
    do 4 eexists. repeat split; eauto. discriminate.
  - destruct rest as [|c rest]; [discriminate|]. destruct (atom_ok f x c); [|discriminate].
    apply star_answer in H as (p' & n' & s' & H).
    do 4 eexists. repeat split; eauto. discriminate.
  - destruct rest as [|c rest]; [discriminate|]. destruct (atom_ok f x c); [|discriminate].
    apply lazy_star_answer in H as (p' & n' & s' & H).
    do 4 eexists. repeat split; eauto. discriminate.
  - apply IHr in H as (g1 & p1 & n1 & s1 & H & _ & _).
    do 4 eexists. repeat split; eauto; discriminate.
  - destruct (exec f r g prev pos rest finish); [|discriminate].
    do 4 eexists. repeat split; eauto. discriminate.
Qed.

(** A match of a pattern in which group 1 is mandatory carries its span. *)
Lemma exec_sets_group (f : flags) (r : regex) (prev : option ascii) (pos : nat)
  (rest : string) (m : rmatch) :
  sets_group r = true -> match_at f r prev pos rest = Some m -> m_span1 m <> None.
Proof.
  intros Hr H. unfold match_at in H.
  destruct (exec f r None prev pos rest finish) as [[e g]|] eqn:E; [|discriminate].
  injection H as <-. apply exec_answer in E as (g' & p' & n' & s' & E & _ & Hs).
  unfold finish in E. injection E as _ <-. now apply Hs.
Qed.

Lemma search_sets_group (f : flags) (r : regex) (s : string) (m : rmatch) :
  sets_group r = true -> re_search f r s = Some m -> m_span1 m <> None.
Proof.
  intros Hr H. apply search_from_inv in H as (pre & rest & _ & H).
  now apply exec_sets_group in H.
Qed.

Lemma patterns_set_group :
  forall r, In r [imgurl_regex; imgcaption_regex; title_regex; from_regex;
                  body_regex; jobline_regex] -> sets_group r = true.
Proof. intros r H. simpl in H. repeat destruct H as [<- | H]; try reflexivity. contradiction. Qed.

(** ** What a match has read *)

Lemma last_char_app (u v : string) (prev : option ascii) :
  last_char (u ++ v) prev = last_char v (last_char u prev).
Proof. revert prev. induction u as [|c u IH]; intro prev; simpl; [reflexivity | apply IH]. Qed.

Lemma forallb_weaken {A : Type} (p q : A -> bool) (l : list A) :
  (forall x, p x = true -> q x = true) -> forallb p l = true -> forallb q l = true.
Proof.
  intro H. induction l as [|x l IH]; simpl; [reflexivity|].
  intro E. apply andb_true_iff in E as [Ex El]. now rewrite (H x Ex), IH.
Qed.

Lemma eat_inv (f : flags) (p : string) :
  forall prev pos rest prev' pos' rest',
    eat f p prev pos rest = Some (prev', pos', rest') ->
    exists w,
      rest = (w ++ rest')%string /\ prev' = last_char w prev /\
      pos' = pos + String.length w /\ String.length w = String.length p /\
      forallb (fun c => existsb (fun a => lit_ok f a c) (chars p)) (chars w) = true.
Proof.
  induction p as [|a p IH]; intros prev pos rest prev' pos' rest' H; simpl in H.
  - injection H as <- <- <-. exists EmptyString. simpl. now rewrite Nat.add_0_r.
  - destruct rest as [|c rest]; [discriminate|].
    destruct (lit_ok f a c) eqn:Hc; [|discriminate].
    apply IH in H as (w & -> & -> & -> & L & Hw).
    exists (String c w). cbn [append last_char String.length chars forallb existsb].
    rewrite Hc, L. repeat split; [lia|].
    cbn [orb andb]. revert Hw. apply forallb_weaken. intros x ->. apply orb_true_r.
Qed.

Lemma lazy_star_inv (ok : ascii -> bool) (k : cont) (ans : answer) :
  forall rest g prev pos,
    lazy_star ok g prev pos rest k = Some ans ->
    exists v r,
      rest = (v ++ r)%string /\ forallb ok (chars v) = true /\
      k g (last_char v prev) (pos + String.length v) r = Some ans.
Proof.
  induction rest as [|c rest IH]; intros g prev pos H; simpl in H.
  - destruct (k g prev pos EmptyString) eqn:E; [|discriminate]. injection H as ->.
    exists EmptyString, EmptyString. simpl. now rewrite Nat.add_0_r.
  - destruct (k g prev pos (String c rest)) eqn:E.
    + injection H as ->. exists EmptyString, (String c rest). simpl. now rewrite Nat.add_0_r.
    + destruct (ok c) eqn:Hc; [|discriminate].
      apply IH in H as (v & r & -> & Hv & Hk).
      exists (String c v), r. simpl. rewrite Hc, Hv.
      repeat split. now rewrite <- Nat.add_succ_comm.
Qed.

(** What a successful run has read: a prefix [w] of the text, at least
    [min_len r] long and made of characters [r] can take, behind which the
    continuation gave the answer. *)
Lemma exec_inv (f : flags) (r : regex) :
  forall k g prev pos rest ans,
    exec f r g prev pos rest k = Some ans ->
    exists g' w rest',
      rest = (w ++ rest')%string /\
      k g' (last_char w prev) (pos + String.length w) rest' = Some ans /\
      min_len r <= String.length w /\
      forallb (eats f r) (chars w) = true.
Proof.
  induction r as [ | x | p | | | | r1 IHr1 r2 IHr2 | r1 IHr1 r2 IHr2 | r IHr
                   | x | x | x | r IHr | r IHr ];
    intros k g prev pos rest ans H; cbn [exec] in H; cbn [min_len eats].
  - exists g, EmptyString, rest. simpl. rewrite Nat.add_0_r. repeat split; auto.
  - destruct rest as [|c rest]; [discriminate|].
    destruct (atom_ok f x c) eqn:Hc; [|discriminate].
    exists g, (String c EmptyString), rest. simpl. rewrite Nat.add_1_r, Hc. repeat split; auto.
  - destruct (eat f p prev pos rest) as [[[p' n'] s']|] eqn:E; [|discriminate].
    apply eat_inv in E as (w & -> & -> & -> & L & Hw).
    exists g, w, s'. repeat split; auto. lia.
  - destruct (at_bol f prev); [|discriminate].
    exists g, EmptyString, rest. simpl. rewrite Nat.add_0_r. repeat split; auto.
  - destruct (at_eol f rest); [|discriminate].
    exists g, EmptyString, rest. simpl. rewrite Nat.add_0_r. repeat split; auto.
  - destruct (xorb _ _); [|discriminate].
    exists g, EmptyString, rest. simpl. rewrite Nat.add_0_r. repeat split; auto.
  - apply IHr1 in H as (g1 & w1 & s1 & -> & H & L1 & H1).
    apply IHr2 in H as (g2 & w2 & s2 & -> & H & L2 & H2).
    exists g2, (w1 ++ w2)%string, s2.
    rewrite app_assoc_s, last_char_app, length_app, chars_app, forallb_app, Nat.add_assoc.
    repeat split; [exact H | lia |].
    apply andb_true_iff. split.
    + revert H1. apply forallb_weaken. intros c ->. reflexivity.
    + revert H2. apply forallb_weaken. intros c ->. apply orb_true_r.
  - destruct (exec f r1 g prev pos rest k) eqn:E.
    + injection H as ->. apply IHr1 in E as (g1 & w1 & s1 & -> & H & L1 & H1).
      exists g1, w1, s1. repeat split; [exact H | lia |].
      revert H1. apply forallb_weaken. intros c ->. reflexivity.
    + apply IHr2 in H as (g1 & w1 & s1 & -> & H & L1 & H1).
      exists g1, w1, s1. repeat split; [exact H | lia |].
      revert H1. apply forallb_weaken. intros c ->. apply orb_true_r.
  - destruct (exec f r g prev pos rest k) eqn:E.
    + injection H as ->. apply IHr in E as (g1 & w1 & s1 & -> & H & L1 & H1).
      exists g1, w1, s1. repeat split; [exact H | lia | exact H1].
    + exists g, EmptyString, rest. simpl. rewrite Nat.add_0_r. repeat split; auto.
  - apply star_inv in H as (v & s' & -> & Hv & H).
    exists g, v, s'. repeat split; [exact H | lia | exact Hv].
  - destruct rest as [|c rest]; [discriminate|].
    destruct (atom_ok f x c) eqn:Hc; [|discriminate].
    apply star_inv in H as (v & s' & -> & Hv & H).
    exists g, (String c v), s'. cbn [append last_char String.length chars forallb].
    rewrite <- Nat.add_succ_comm. repeat split; [exact H | lia |].
    apply andb_true_iff. split; [exact Hc | exact Hv].
  - destruct rest as [|c rest]; [discriminate|].
    destruct (atom_ok f x c) eqn:Hc; [|discriminate].
    apply lazy_star_inv in H as (v & s' & -> & Hv & H).
    exists g, (String c v), s'. cbn [append last_char String.length chars forallb].
    rewrite <- Nat.add_succ_comm. repeat split; [exact H | lia |].
    apply andb_true_iff. split; [exact Hc | exact Hv].
  - apply IHr in H as (g1 & w1 & s1 & -> & H & L1 & H1).
    eexists _, w1, s1. repeat split; [exact H | lia | exact H1].
  - destruct (exec f r g prev pos rest finish); [|discriminate].
    exists g, EmptyString, rest. simpl. rewrite Nat.add_0_r. repeat split; auto.
Qed.

Lemma match_at_inv (f : flags) (r : regex) (prev : option ascii) (pos : nat)
  (rest : string) (m : rmatch) :
  match_at f r prev pos rest = Some m ->
  exists w rest',
    rest = (w ++ rest')%string /\ m_start m = pos /\
    m_end m = pos + String.length w /\ min_len r <= String.length w /\
    forallb (eats f r) (chars w) = true.
Proof.
  unfold match_at. intro H.
  destruct (exec f r None prev pos rest finish) as [[e g]|] eqn:E; [|discriminate].
  injection H as <-. apply exec_inv in E as (g' & w & rest' & -> & E & L & Hw).
  unfold finish in E. injection E as <- _.
  exists w, rest'. simpl. auto.
Qed.

Lemma spans_ok_weaken (P : ascii -> bool) (whole : string) (lo lo' : nat) (ms : list rmatch) :
  lo' <= lo -> spans_ok P whole lo ms -> spans_ok P whole lo' ms.
Proof. destruct ms as [|m ms]; simpl; [auto|]. intros Hle (H1 & H2); split; [lia | exact H2]. Qed.

(** The matches of a scan come in order, do not overlap, and each holds only
    characters the pattern can take. *)
Lemma finditer_from_spans (f : flags) (r : regex) :
  1 <= min_len r ->
  forall rest pre prev skip,
    spans_ok (eats f r) (pre ++ rest) (String.length pre + skip)
      (finditer_from f r prev (String.length pre) rest skip).
Proof.
  intro Hmin. induction rest as [|c rest IH]; intros pre prev skip.
  - destruct skip; simpl; [|exact Logic.I].
    destruct (match_at f r prev (String.length pre) EmptyString) as [m|] eqn:E; [|exact Logic.I].
    apply match_at_inv in E as (w & rest' & Hw & _ & _ & L & _).
    destruct w; simpl in *; [lia | discriminate].
  - assert (Hnext : forall k,
               spans_ok (eats f r) (pre ++ String c rest) (S (String.length pre) + k)
                 (finditer_from f r (Some c) (S (String.length pre)) rest k)).
    { intro k. specialize (IH (pre ++ String c EmptyString)%string (Some c) k).
      rewrite app_assoc_s, length_app in IH. simpl in IH.
      now rewrite Nat.add_1_r in IH. }
    destruct skip as [|skip]; cbn [finditer_from].
    + destruct (match_at f r prev (String.length pre) (String c rest)) as [m|] eqn:E.
      * apply match_at_inv in E as (w & rest' & Hw & Hs & He & L & Hc).
        cbn [spans_ok]. repeat split; [lia | lia | |].
        -- exists pre, w, rest'. rewrite Hw. repeat split; auto.
        -- specialize (Hnext (m_end m - String.length pre - 1)).
           replace (S (String.length pre) + (m_end m - String.length pre - 1))
             with (m_end m) in Hnext by lia.
           exact Hnext.
      * eapply spans_ok_weaken; [|apply (Hnext 0)]. lia.
    + replace (String.length pre + S skip) with (S (String.length pre) + skip) by lia.
      apply Hnext.
Qed.

Lemma re_finditer_spans (f : flags) (r : regex) (s : string) :
  1 <= min_len r -> spans_ok (eats f r) s 0 (re_finditer f r s).
Proof. intro H. exact (finditer_from_spans f r H s EmptyString None 0). Qed.

(** ** Spans of the two scans *)

Lemma parbreak_eats_space (c : ascii) :
  eats no_flags parbreak_regex c = true -> is_space c = true.
Proof. each_char c; intro H; try reflexivity; discriminate H. Qed.

Lemma url_eats_no_space (c : ascii) :
  eats no_flags url_regex c = true -> is_space c = false.
Proof. each_char c; intro H; try reflexivity; discriminate H. Qed.

Lemma holds_weaken (P Q : ascii -> bool) (whole : string) (a b : nat) :
  (forall c, P c = true -> Q c = true) -> holds P whole a b -> holds Q whole a b.
Proof.
  intros H (pre & w & post & E & Ha & Hb & Hw).
  exists pre, w, post. repeat split; auto. revert Hw. now apply forallb_weaken.
Qed.

Lemma spans_chain (P : ascii -> bool) (s : string) (mk : rmatch -> segment) :
  (forall m, start (mk m) = m_start m /\ end_ (mk m) = m_end m) ->
  forall ms lo,
    spans_ok P s lo ms ->
    chain lo (map mk ms) /\
    Forall (fun seg => holds P s (start seg) (end_ seg)) (map mk ms).
Proof.
  intro Hmk. induction ms as [|m ms IH]; intros lo H; simpl in *.
  - split; [exact Logic.I | constructor].
  - destruct H as (Hlo & Hne & Hh & Hrest). destruct (Hmk m) as [-> ->].
    destruct (IH _ Hrest) as [Hc Hf]. repeat split; auto.
    constructor; [|exact Hf]. now destruct (Hmk m) as [-> ->].
Qed.

Lemma paragraph_spans_chain (s : string) :
  chain 0 (paragraph_spans s) /\
  Forall (fun seg => holds is_space s (start seg) (end_ seg)) (paragraph_spans s).
Proof.
  unfold paragraph_spans.
  destruct (spans_chain (eats no_flags parbreak_regex) s
              (fun m => Segment (m_start m) (m_end m) "p" None)
              (fun m => conj eq_refl eq_refl) _ 0
              (re_finditer_spans no_flags parbreak_regex s (le_S _ _ (le_n 1)))) as [Hc Hf].
  split; [exact Hc|]. eapply Forall_impl; [|exact Hf].
  intros seg. apply holds_weaken, parbreak_eats_space.
Qed.

Lemma url_spans_chain (s : string) :
  chain 0 (url_spans s) /\
  Forall (fun seg => holds (fun c => negb (is_space c)) s (start seg) (end_ seg)) (url_spans s).
Proof.
  unfold url_spans.
  destruct (spans_chain (eats no_flags url_regex) s
              (fun m => Segment (m_start m) (m_end m) "u" (Some (group0 s m)))
              (fun m => conj eq_refl eq_refl) _ 0
              (re_finditer_spans no_flags url_regex s ltac:(simpl; lia))) as [Hc Hf].
  split; [exact Hc|]. eapply Forall_impl; [|exact Hf].
  intros seg. apply holds_weaken. intros c H. now rewrite (url_eats_no_space c H).
Qed.

(** ** Spans that cannot overlap *)

Lemma get_middle (pre w post : string) (j : nat) :
  j < String.length w ->
  get (String.length pre + j) (pre ++ w ++ post) = get j w.
Proof.
  intro Hj. induction pre as [|c pre IH]; simpl.
  - revert j Hj. induction w as [|c w IHw]; intros j Hj; simpl in *; [lia|].
    destruct j; [reflexivity|]. apply IHw. lia.
  - exact IH.
Qed.

Lemma get_forallb (P : ascii -> bool) (w : string) (j : nat) :
  forallb P (chars w) = true -> j < String.length w ->
  exists x, get j w = Some x /\ P x = true.
Proof.
  revert j. induction w as [|c w IH]; intros j H Hj; simpl in *; [lia|].
  apply andb_true_iff in H as [Hc Hw].
  destruct j; [now exists c|]. apply IH; [exact Hw | lia].
Qed.

Lemma holds_at (P : ascii -> bool) (whole : string) (a b i : nat) :
  holds P whole a b -> a <= i -> i < b ->
  exists x, get i whole = Some x /\ P x = true.
Proof.
  intros (pre & w & post & -> & -> & -> & Hw) Ha Hb.
  replace i with (String.length pre + (i - String.length pre)) by lia.
  rewrite get_middle by lia. apply get_forallb; [exact Hw | lia].
Qed.

Lemma holds_apart (s : string) (p u : segment) :
  start p < end_ p -> start u < end_ u ->
  holds is_space s (start p) (end_ p) ->
  holds (fun c => negb (is_space c)) s (start u) (end_ u) ->
  apart p u.
Proof.
  intros Hnp Hnu Hp Hu. unfold apart.
  destruct (le_lt_dec (end_ p) (start u)) as [|H1]; [now left|].
  destruct (le_lt_dec (end_ u) (start p)) as [|H2]; [now right|].
  exfalso.
  destruct (holds_at _ _ _ _ (Nat.max (start p) (start u)) Hp) as (x & Ex & Hx); [lia | lia |].
  destruct (holds_at _ _ _ _ (Nat.max (start p) (start u)) Hu) as (y & Ey & Hy); [lia | lia |].
  rewrite Ex in Ey. injection Ey as <-. now rewrite Hx in Hy.
Qed.

(** ** Sorting *)

Lemma FOP_perm {A : Type} (R : A -> A -> Prop) (l l' : list A) :
  (forall a b, R a b -> R b a) ->
  Permutation l l' -> ForallOrdPairs R l -> ForallOrdPairs R l'.
Proof.
  intros Hsym Hperm. induction Hperm as [| x l l' Hperm IH | x y l | l l' l'' _ IH1 _ IH2];
    intro H.
  - exact H.
  - inversion H as [|? ? Hx Hl]; subst. constructor; [|now apply IH].
    eapply Permutation_Forall; eauto.
  - inversion H as [|? ? Hy Hxl]; subst. inversion Hxl as [|? ? Hx Hl]; subst.
    inversion Hy as [|? ? Hyx Hyl]; subst.
    constructor; [constructor; [now apply Hsym | exact Hx]|].
    constructor; assumption.
  - auto.
Qed.

Lemma FOP_app {A : Type} (R : A -> A -> Prop) (l1 l2 : list A) :
  ForallOrdPairs R l1 -> ForallOrdPairs R l2 ->
  (forall a b, In a l1 -> In b l2 -> R a b) ->
  ForallOrdPairs R (l1 ++ l2).
Proof.
  intros H1 H2 H. induction H1 as [|x l1 Hx Hl IH]; simpl; [exact H2|].
  constructor.
  - apply Forall_app. split; [exact Hx|].
    apply Forall_forall. intros b Hb. apply H; [now left | exact Hb].
  - apply IH. intros a b Ha Hb. apply H; [now right | exact Hb].
Qed.

Lemma chain_lower (lo : nat) (segs : list segment) :
  chain lo segs -> Forall (fun y => lo <= start y /\ start y < end_ y) segs.
Proof.
  revert lo. induction segs as [|x segs IH]; intros lo H; simpl in *; [constructor|].
  destruct H as (H1 & H2 & H3). constructor; [auto|].
  eapply Forall_impl; [|apply (IH _ H3)]. simpl. intros y [Hy1 Hy2]. lia.
Qed.

Lemma chain_apart (lo : nat) (segs : list segment) :
  chain lo segs -> ForallOrdPairs apart segs.
Proof.
  revert lo. induction segs as [|x segs IH]; intros lo H; simpl in *; [constructor|].
  destruct H as (H1 & H2 & H3). constructor; [|now apply (IH (end_ x))].
  eapply Forall_impl; [|apply (chain_lower _ _ H3)]. intros y [Hy _]. now left.
Qed.

Lemma insert_by_start_sorted (x : segment) (l : list segment) :
  StronglySorted le_start l -> StronglySorted le_start (insert_by_start x l).
Proof.
  induction l as [|y l IH]; intro H; simpl.
  - constructor; constructor.
  - inversion H as [|? ? Hl Hy]; subst.
    destruct (start x <=? start y)%nat eqn:E.
    + apply Nat.leb_le in E. constructor; [exact H|].
      constructor; [exact E|]. eapply Forall_impl; [|exact Hy].
      unfold le_start. intros z Hz. lia.
    + apply Nat.leb_gt in E. constructor; [now apply IH|].
      eapply Permutation_Forall; [apply insert_by_start_perm|].
      constructor; [unfold le_start; lia | exact Hy].
Qed.

Lemma sort_by_start_sorted (l : list segment) : StronglySorted le_start (sort_by_start l).
Proof.
  induction l as [|x l IH]; simpl; [constructor | now apply insert_by_start_sorted].
Qed.

(** A sorted list of segments that are pairwise apart is a chain. *)
Lemma sorted_chain (l : list segment) :
  StronglySorted le_start l -> ForallOrdPairs apart l ->
  Forall (fun y => start y < end_ y) l ->
  forall lo, Forall (fun y => lo <= start y) l -> chain lo l.
Proof.
  induction l as [|x l IH]; intros Hs Ha Hne lo Hlo; simpl; [exact Logic.I|].
  inversion Hs as [|? ? Hs' Hx]; subst. inversion Ha as [|? ? Hax Ha']; subst.
  inversion Hne as [|? ? Hnx Hne']; subst. inversion Hlo as [|? ? Hlx _]; subst.
  repeat split; [exact Hlx | exact Hnx|].
  apply IH; auto. rewrite Forall_forall in *. intros y Hy.
  specialize (Hx y Hy). specialize (Hax y Hy). specialize (Hne' y Hy).
  unfold le_start, apart in *. lia.
Qed.

(** Two sorted lists with the same members, one without repeated keys, are equal. *)
Lemma sorted_unique (l1 : list segment) :
  forall l2,
    StronglySorted le_start l1 -> StronglySorted lt_start l2 ->
    Permutation l1 l2 -> l1 = l2.
Proof.
  induction l1 as [|x l1 IH]; intros l2 H1 H2 Hp.
  - apply Permutation_nil in Hp. now subst.
  - destruct l2 as [|y l2]; [apply Permutation_sym, Permutation_nil in Hp; discriminate|].
    inversion H1 as [|? ? H1' Hx]; subst. inversion H2 as [|? ? H2' Hy]; subst.
    assert (Hxy : x = y).
    { assert (Hin1 : In x (y :: l2)) by (eapply Permutation_in; [exact Hp | now left]).
      assert (Hin2 : In y (x :: l1))
        by (eapply Permutation_in; [apply Permutation_sym, Hp | now left]).
      destruct Hin1 as [-> | Hin1]; [reflexivity|].
      destruct Hin2 as [<- | Hin2]; [reflexivity|].
      rewrite Forall_forall in Hx, Hy.
      specialize (Hx y Hin2). specialize (Hy x Hin1).
      unfold le_start, lt_start in *. lia. }
    subst y. f_equal. apply IH; auto. now apply Permutation_cons_inv in Hp.
Qed.

(** ** Filling the gaps *)

Lemma fill_gaps_eq (s : string) :
  forall ch cur acc, fill_gaps s ch cur acc = (last_end cur ch, acc ++ gaps s cur ch).
Proof.
  induction ch as [|seg ch IH]; intros cur acc; simpl.
  - now rewrite app_nil_r.
  - rewrite IH. f_equal. unfold text_seg.
    destruct (cur <? start seg)%nat; simpl; [now rewrite <- app_assoc | reflexivity].
Qed.

Lemma tiling_perm (s : string) :
  forall ch cur,
    Permutation (ch ++ gaps s cur ch ++ final_gap s (last_end cur ch)) (tiling s cur ch).
Proof.
  induction ch as [|seg ch IH]; intro cur; simpl; [reflexivity|].
  rewrite <- app_assoc.
  set (g := if (cur <? start seg)%nat then [text_seg s cur (start seg)] else []).
  rewrite <- (IH (end_ seg)).
  rewrite <- Permutation_middle. apply perm_skip.
  rewrite !app_assoc. apply Permutation_app_tail, Permutation_app_tail.
  apply Permutation_app_comm.
Qed.

Lemma tiling_tiles (s : string) :
  forall ch cur,
    chain cur ch -> Forall (fun seg => end_ seg <= String.length s) ch ->
    cur <= String.length s ->
    tiles cur (tiling s cur ch) (String.length s).
Proof.
  induction ch as [|seg ch IH]; intros cur Hc Hb Hcur; simpl.
  - unfold final_gap. destruct (cur <? String.length s)%nat eqn:E; simpl.
    + apply Nat.ltb_lt in E. auto.
    + apply Nat.ltb_ge in E. lia.
  - destruct Hc as (H1 & H2 & H3). inversion Hb as [|? ? Hseg Hb']; subst.
    specialize (IH (end_ seg) H3 Hb' Hseg).
    destruct (cur <? start seg)%nat eqn:E; simpl.
    + apply Nat.ltb_lt in E. auto.
    + apply Nat.ltb_ge in E. repeat split; [lia | lia | exact IH].
Qed.

Lemma tiles_sorted (segs : list segment) :
  forall from n,
    tiles from segs n ->
    StronglySorted lt_start segs /\ Forall (fun y => from <= start y) segs /\ from <= n.
Proof.
  induction segs as [|x segs IH]; intros from n H; simpl in H.
  - subst. repeat split; constructor.
  - destruct H as (H1 & H2 & H3). destruct (IH _ _ H3) as (Hs & Hf & Hn).
    repeat split; [| | lia].
    + constructor; [exact Hs|]. eapply Forall_impl; [|exact Hf].
      unfold lt_start. intros y Hy. lia.
    + constructor; [lia|]. eapply Forall_impl; [|exact Hf]. simpl. intros y Hy. lia.
Qed.

Lemma substring_add (s : string) :
  forall a m k, substring a (m + k) s = (substring a m s ++ substring (a + m) k s)%string.
Proof.
  induction s as [|c s IH]; intros a m k.
  - destruct a, m, k; reflexivity.
  - destruct a as [|a]; simpl.
    + destruct m as [|m]; simpl; [reflexivity|].
      rewrite (IH 0 m k). reflexivity.
    + apply IH.
Qed.

Lemma slice_app (s : string) (a b c : nat) :
  a <= b -> b <= c -> (slice a b s ++ slice b c s)%string = slice a c s.
Proof.
  intros Hab Hbc. unfold slice.
  replace (c - a) with ((b - a) + (c - b)) by lia.
  rewrite substring_add. do 2 f_equal. lia.
Qed.

Lemma tiles_covered (s : string) (segs : list segment) :
  forall from n, tiles from segs n -> covered s segs = slice from n s.
Proof.
  unfold covered. induction segs as [|x segs IH]; intros from n H; simpl in *.
  - subst. now rewrite slice_empty.
  - destruct H as (H1 & H2 & H3). rewrite (IH _ _ H3), H1.
    apply slice_app; [lia|]. now apply tiles_sorted in H3.
Qed.

Lemma holds_bound (P : ascii -> bool) (s : string) (a b : nat) :
  holds P s a b -> b <= String.length s.
Proof.
  intros (pre & w & post & -> & -> & -> & _). rewrite !length_app. lia.
Qed.

(** ** The resolved list *)

(** The spans of the two scans, sorted, form a chain inside the string. *)
Lemma found_chain (s : string) :
  chain 0 (sort_by_start (paragraph_spans s ++ url_spans s)) /\
  Forall (fun seg => end_ seg <= String.length s)
    (sort_by_start (paragraph_spans s ++ url_spans s)).
Proof.
  destruct (paragraph_spans_chain s) as [Hpc Hph].
  destruct (url_spans_chain s) as [Huc Huh].
  pose proof (chain_lower _ _ Hpc) as Hpl. pose proof (chain_lower _ _ Huc) as Hul.
  assert (Hne : Forall (fun y => start y < end_ y) (paragraph_spans s ++ url_spans s)).
  { apply Forall_app.
    split; [eapply Forall_impl; [|exact Hpl] | eapply Forall_impl; [|exact Hul]];
      simpl; intros y [_ Hy]; exact Hy. }
  assert (Hb : Forall (fun seg => end_ seg <= String.length s)
                 (paragraph_spans s ++ url_spans s)).
  { apply Forall_app.
    split; [eapply Forall_impl; [|exact Hph] | eapply Forall_impl; [|exact Huh]];
      simpl; intros y Hy; exact (holds_bound _ _ _ _ Hy). }
  assert (Hap : ForallOrdPairs apart (paragraph_spans s ++ url_spans s)).
  { apply FOP_app; [exact (chain_apart _ _ Hpc) | exact (chain_apart _ _ Huc) |].
    intros p u Hp Hu. rewrite Forall_forall in Hph, Huh, Hpl, Hul.
    apply (holds_apart s); [apply (Hpl p Hp) | apply (Hul u Hu) | auto | auto]. }
  pose proof (sort_by_start_perm (paragraph_spans s ++ url_spans s)) as Hperm.
  split.
  - apply sorted_chain.
    + apply sort_by_start_sorted.
    + eapply FOP_perm; [|exact Hperm | exact Hap]. unfold apart. intros a b H. lia.
    + eapply Permutation_Forall; [exact Hperm | exact Hne].
    + apply Forall_forall. intros y _. lia.
  - eapply Permutation_Forall; [exact Hperm | exact Hb].
Qed.

(** Past the early return, the resolved list is the spans with every gap filled. *)
Lemma segments_of_tiling (s : string) :
  paragraph_spans s ++ url_spans s <> [] ->
  segments_of s = tiling s 0 (sort_by_start (paragraph_spans s ++ url_spans s)).
Proof.
  intro Hne. unfold segments_of.
  destruct (found_chain s) as [Hc Hb].
  destruct (paragraph_spans s ++ url_spans s) as [|seg found] eqn:E; [congruence|].
  rewrite fill_gaps_eq. cbn [app].
  apply sorted_unique.
  - apply sort_by_start_sorted.
  - exact (proj1 (tiles_sorted _ 0 (String.length s)
                    (tiling_tiles s _ 0 Hc Hb (Nat.le_0_l _)))).
  - rewrite <- sort_by_start_perm. apply (tiling_perm s _ 0).
Qed.

(** X6.  Whenever one of the two scans of the classifier finds a span, the
    resolved segment list tiles the string (each segment is non-empty and
    starts where the one before it ends, from offset 0 to the length) and
    the substrings it covers give the string back. *)
Theorem segments_tile_when_found (s : string) :
  paragraph_spans s ++ url_spans s <> [] ->
  tiles 0 (segments_of s) (String.length s) /\ covered s (segments_of s) = s.
Proof.
  intro Hne. rewrite (segments_of_tiling s Hne).
  destruct (found_chain s) as [Hc Hb].
  assert (Ht : tiles 0 (tiling s 0 (sort_by_start (paragraph_spans s ++ url_spans s)))
                 (String.length s)) by (apply tiling_tiles; [assumption | assumption | lia]).
  split; [exact Ht|].
  rewrite (tiles_covered s _ 0 (String.length s) Ht), drop_slice. reflexivity.
Qed.

(** ** The guard of the output names *)

Lemma eat_exact (p : string) :
  forall prev pos rest prev' pos' rest',
    eat no_flags p prev pos rest = Some (prev', pos', rest') -> rest = (p ++ rest')%string.
Proof.
  induction p as [|a p IH]; intros prev pos rest prev' pos' rest' H; simpl in H.
  - now injection H as _ _ ->.
  - destruct rest as [|c rest]; [discriminate|].
    unfold lit_ok in H. simpl in H.
    destruct (Ascii.eqb a c) eqn:E; [|discriminate].
    apply Ascii.eqb_eq in E. subst c. simpl. f_equal. eapply IH, H.
Qed.


Lemma txt_guard_fires (read_file : string -> string)
  (build_newsletter : aaswitems -> string * mixedstr) :
  main read_file build_newsletter ["aasw.py"; ".txt"]
  = Outcome (Exited 1) [clobber_warning] [].
Proof. reflexivity. Qed.

(** ** Evaluations *)

(** C7.  Parsing the block [title: Test], newline,
    [text: Visit http://example.com today.] yields exactly one item, also
    as the whole input next to an empty file of final items; the HTML of
    its renderer contains the anchor on http://example.com and its plain
    text contains the URL itself. *)
Theorem example_block_item :
  exists it,
    parse_filetext empty_aaswitems example_block = Ok (Aaswitems [it] EmptyString NoCaption) /\
    aaswitems_init example_block EmptyString = Ok (Aaswitems [it] EmptyString NoCaption) /\
    item_title it = "Test" /\
    contains example_anchor (mixedstr_print_html (item_text it)) = true /\
    contains "http://example.com" (mixedstr_print_text (item_text it)) = true.
Proof. eexists. split; [vm_compute; reflexivity|]. repeat split. Qed.

(** C1.  For the body [abc], in which neither scan finds a span, the
    constructor returns at line 217 with no segment at all: the list does not
    tile [0, 3) and the substrings it covers do not give the body back. *)
Theorem plain_body_has_no_segments :
  segments_of "abc" = [] /\
  ~ tiles 0 (segments_of "abc") (String.length "abc") /\
  covered "abc" (segments_of "abc") <> "abc".
Proof. repeat split; simpl; discriminate. Qed.

(** C2.  A body without URL span and without paragraph break is classified
    into no node at all, not into one text node holding the body: the
    renderer of such an item is empty. *)
Theorem spanless_body_renders_empty (s : string) :
  paragraph_spans s = [] -> url_spans s = [] ->
  segments_of s = [] /\ parsedstr_init s false = Ok [].
Proof.
  intros Hp Hu. unfold parsedstr_init, classified, segments_of.
  rewrite Hp, Hu. split; reflexivity.
Qed.

Lemma spanless_body_renders_empty_witness :
  paragraph_spans "Hello world" = [] /\
  url_spans "Hello world" = [] /\
  parsedstr_init "Hello world" false = Ok [].
Proof.
  split; [reflexivity|]. split; [reflexivity|].
  exact (proj2 (spanless_body_renders_empty "Hello world" eq_refl eq_refl)).
Defined.

(** C3.  For the input name [draft.txt] the test of line 344 does not fire,
    since it is anchored at the start of the name: the run goes on, and when
    the parser succeeds it writes [draft.html] and then [draft.txt], the
    input file itself. *)
Theorem txt_input_is_overwritten (read_file : string -> string)
  (build_newsletter : aaswitems -> string * mixedstr) :
  re_match no_flags txt_regex "draft.txt" = None /\
  main read_file build_newsletter ["aasw.py"; "draft.txt"] =
    match aaswitems_init (read_file "draft.txt") (read_file final_text_filename) with
    | Raise e => Outcome (Uncaught e) [] []
    | Ok newsletter_items =>
        let '(heading, full_newsletter) := build_newsletter newsletter_items in
        Outcome Returned
          [heading; "HTML newsletter written to draft.html";
           "Text newsletter written to draft.txt"]
          [("draft.html", mixedstr_print_html full_newsletter);
           ("draft.txt", mixedstr_print_text full_newsletter)]
    end.
Proof. split; reflexivity. Qed.


(* ================================================================= *)
(** * Further properties of the code *)

Lemma starts_with_restrict (ci : bool) (p : string) :
  forall w r, starts_with ci p (w ++ r) = true -> String.length p <= String.length w ->
    starts_with ci p w = true.
Proof.
  induction p as [|a p IH]; intros w r H L; simpl in *; [reflexivity|].
  destruct w as [|c w]; simpl in *; [lia|].
  apply andb_true_iff in H as [-> H]. simpl. apply (IH w r H). lia.
Qed.

(** Whatever a run has read is in the language of its pattern. *)
Lemma exec_sound (f : flags) (r : regex) :
  forall k g prev pos rest ans,
    exec f r g prev pos rest k = Some ans ->
    exists g' w rest',
      rest = (w ++ rest')%string /\
      k g' (last_char w prev) (pos + String.length w) rest' = Some ans /\
      lang f r w.
Proof.
  induction r as [ | x | p | | | | r1 IHr1 r2 IHr2 | r1 IHr1 r2 IHr2 | r IHr
                   | x | x | x | r IHr | r IHr ];
    intros k g prev pos rest ans H; cbn [exec] in H; cbn [lang].
  - exists g, EmptyString, rest. simpl. rewrite Nat.add_0_r. auto.
  - destruct rest as [|c rest]; [discriminate|].
    destruct (atom_ok f x c) eqn:Hc; [|discriminate].
    exists g, (String c EmptyString), rest. simpl. rewrite Nat.add_1_r.
    repeat split; eauto.
  - destruct (eat f p prev pos rest) as [[[p' n'] s']|] eqn:E; [|discriminate].
    assert (Hs : starts_with (IGNORECASE f) p rest = true).
    { destruct (starts_with (IGNORECASE f) p rest) eqn:Hs; [reflexivity|].
      rewrite (eat_none f p prev pos rest Hs) in E. discriminate. }
    apply eat_inv in E as (w & -> & -> & -> & L & _).
    exists g, w, s'. repeat split; auto.
    apply (starts_with_restrict _ _ _ _ Hs). lia.
  - destruct (at_bol f prev); [|discriminate].
    exists g, EmptyString, rest. simpl. rewrite Nat.add_0_r. auto.
  - destruct (at_eol f rest); [|discriminate].
    exists g, EmptyString, rest. simpl. rewrite Nat.add_0_r. auto.
  - destruct (xorb _ _); [|discriminate].
    exists g, EmptyString, rest. simpl. rewrite Nat.add_0_r. auto.
  - apply IHr1 in H as (g1 & w1 & s1 & -> & H & L1).
    apply IHr2 in H as (g2 & w2 & s2 & -> & H & L2).
    exists g2, (w1 ++ w2)%string, s2.
    rewrite app_assoc_s, last_char_app, length_app, Nat.add_assoc.
    repeat split; [exact H|]. eauto.
  - destruct (exec f r1 g prev pos rest k) eqn:E.
    + injection H as ->. apply IHr1 in E as (g1 & w1 & s1 & -> & H & L1).
      exists g1, w1, s1. auto.
    + apply IHr2 in H as (g1 & w1 & s1 & -> & H & L1).
      exists g1, w1, s1. auto.
  - destruct (exec f r g prev pos rest k) eqn:E.
    + injection H as ->. apply IHr in E as (g1 & w1 & s1 & -> & H & L1).
      exists g1, w1, s1. auto.
    + exists g, EmptyString, rest. simpl. rewrite Nat.add_0_r. auto.
  - apply star_inv in H as (v & s' & -> & Hv & H).
    exists g, v, s'. auto.
  - destruct rest as [|c rest]; [discriminate|].
    destruct (atom_ok f x c) eqn:Hc; [|discriminate].
    apply star_inv in H as (v & s' & -> & Hv & H).
    exists g, (String c v), s'. cbn [append last_char String.length chars forallb].
    rewrite <- Nat.add_succ_comm, Hc, Hv. repeat split; [exact H | discriminate].
  - destruct rest as [|c rest]; [discriminate|].
    destruct (atom_ok f x c) eqn:Hc; [|discriminate].
    apply lazy_star_inv in H as (v & s' & -> & Hv & H).
    exists g, (String c v), s'. cbn [append last_char String.length chars forallb].
    rewrite <- Nat.add_succ_comm, Hc, Hv. repeat split; [exact H | discriminate].
  - apply IHr in H as (g1 & w1 & s1 & -> & H & L1).
    eexists _, w1, s1. repeat split; [exact H | exact L1].
  - destruct (exec f r g prev pos rest finish); [|discriminate].
    exists g, EmptyString, rest. simpl. rewrite Nat.add_0_r. auto.
Qed.

Lemma match_at_sound (f : flags) (r : regex) (prev : option ascii) (pos : nat)
  (rest : string) (m : rmatch) :
  match_at f r prev pos rest = Some m ->
  exists w rest',
    rest = (w ++ rest')%string /\ m_start m = pos /\
    m_end m = pos + String.length w /\ lang f r w.
Proof.
  unfold match_at. intro H.
  destruct (exec f r None prev pos rest finish) as [[e g]|] eqn:E; [|discriminate].
  injection H as <-. apply exec_sound in E as (g' & w & rest' & -> & E & L).
  unfold finish in E. injection E as <- _.
  exists w, rest'. simpl. auto.
Qed.

Lemma lang_min_len (f : flags) (r : regex) :
  forall w, lang f r w -> min_len r <= String.length w.
Proof.
  induction r as [ | x | p | | | | r1 IHr1 r2 IHr2 | r1 IHr1 r2 IHr2 | r IHr
                   | x | x | x | r IHr | r IHr ]; intros w H; cbn [lang min_len] in *;
    try lia.
  - destruct H as (c & -> & _). simpl. lia.
  - destruct H as (w1 & w2 & -> & H1 & H2). rewrite length_app.
    specialize (IHr1 _ H1). specialize (IHr2 _ H2). lia.
  - destruct H as [H | H]; [specialize (IHr1 _ H) | specialize (IHr2 _ H)]; lia.
  - destruct w; simpl; [now destruct H | lia].
  - destruct w; simpl; [now destruct H | lia].
  - auto.
Qed.

Lemma app_inj_length (a b c d : string) :
  (a ++ b = c ++ d)%string -> String.length a = String.length c -> a = c /\ b = d.
Proof.
  revert c. induction a as [|x a IH]; intros [|y c] H L; simpl in *; try lia.
  - auto.
  - injection H as -> H. destruct (IH c H) as [-> ->]; [lia | auto].
Qed.

Lemma scan_ok_extend (f : flags) (r : regex) (whole : string) (lo : nat) (ms : list rmatch) :
  (forall pre rest, whole = (pre ++ rest)%string -> String.length pre = lo ->
     match_at f r (last_char pre None) (String.length pre) rest = None) ->
  scan_ok f r whole (S lo) ms -> scan_ok f r whole lo ms.
Proof.
  intros Hlo. destruct ms as [|m ms]; cbn [scan_ok].
  - intros H pre rest E L.
    destruct (Nat.eq_dec (String.length pre) lo) as [Heq|Hne]; [now apply Hlo|].
    apply H; [exact E | lia].
  - intros (H1 & H2 & H3 & H4 & H5). repeat split; [lia | exact H2 | exact H3 | | exact H5].
    intros pre rest E L L'.
    destruct (Nat.eq_dec (String.length pre) lo) as [Heq|Hne]; [now apply Hlo|].
    apply H4; [exact E | lia | exact L'].
Qed.

(** A scan returns the leftmost matches that do not overlap. *)
Lemma finditer_from_scan (f : flags) (r : regex) :
  1 <= min_len r ->
  forall rest pre skip,
    scan_ok f r (pre ++ rest) (String.length pre + skip)
      (finditer_from f r (last_char pre None) (String.length pre) rest skip).
Proof.
  intro Hmin. induction rest as [|c rest IH]; intros pre skip.
  - destruct skip; cbn [finditer_from].
    + destruct (match_at f r (last_char pre None) (String.length pre) EmptyString) as [m|] eqn:E.
      * apply match_at_sound in E as (w & rest' & Hw & _ & _ & L).
        apply lang_min_len in L. destruct w; simpl in *; [lia | discriminate].
      * cbn [scan_ok]. intros p q Ew L. rewrite Nat.add_0_r in L.
        assert (Hlen : String.length (pre ++ "") = String.length (p ++ q)) by now rewrite Ew.
        rewrite !length_app in Hlen. simpl in Hlen.
        destruct q; [|simpl in Hlen; lia].
        rewrite !app_empty_r in Ew. now subst p.
    + cbn [scan_ok]. intros p q Ew L.
      assert (Hlen : String.length (pre ++ "") = String.length (p ++ q)) by now rewrite Ew.
      rewrite !length_app in Hlen. simpl in Hlen. lia.
  - assert (Hnext : forall k,
               scan_ok f r (pre ++ String c rest) (S (String.length pre) + k)
                 (finditer_from f r (Some c) (S (String.length pre)) rest k)).
    { intro k. specialize (IH (pre ++ String c EmptyString)%string k).
      rewrite app_assoc_s, length_app, last_char_app in IH. simpl in IH.
      now rewrite Nat.add_1_r in IH. }
    destruct skip as [|skip]; cbn [finditer_from].
    + rewrite Nat.add_0_r.
      destruct (match_at f r (last_char pre None) (String.length pre) (String c rest))
        as [m|] eqn:E.
      * pose proof E as E'.
        apply match_at_sound in E' as (w & rest' & Hw & Hs & He & L).
        pose proof (lang_min_len _ _ _ L) as Lw.
        cbn [scan_ok]. repeat split; [lia | lia | | |].
        -- exists pre, w, rest'. rewrite <- Hw. repeat split; auto.
        -- intros p q _ L1 L2. lia.
        -- specialize (Hnext (m_end m - String.length pre - 1)).
           replace (S (String.length pre) + (m_end m - String.length pre - 1))
             with (m_end m) in Hnext by lia.
           exact Hnext.
      * pose proof (Hnext 0) as H0. rewrite Nat.add_0_r in H0.
        apply scan_ok_extend; [|exact H0].
        intros p q Ew L. apply app_inj_length in Ew as [<- <-]; [exact E | now symmetry].
    + replace (String.length pre + S skip) with (S (String.length pre) + skip) by lia.
      apply Hnext.
Qed.

Lemma re_finditer_scan (f : flags) (r : regex) (s : string) :
  1 <= min_len r -> scan_ok f r s 0 (re_finditer f r s).
Proof. intro H. exact (finditer_from_scan f r H s EmptyString 0). Qed.

(** ** Splitting on the delimiter *)

Lemma starts_with_exact (p : string) :
  forall w, starts_with false p w = true -> String.length w = String.length p -> w = p.
Proof.
  induction p as [|a p IH]; intros [|c w] H L; simpl in *; try lia; try reflexivity.
  apply andb_true_iff in H as [Hc H]. apply Ascii.eqb_eq in Hc. subst c.
  f_equal. apply IH; [exact H | lia].
Qed.

Lemma starts_with_refl (p r : string) : starts_with false p (p ++ r) = true.
Proof. induction p as [|a p IH]; simpl; [reflexivity|]. now rewrite Ascii.eqb_refl. Qed.

Lemma delimiter_lang (w : string) : lang no_flags delimiter_regex w -> w = "---".
Proof. intros [L H]. now apply starts_with_exact. Qed.

Lemma delimiter_match_here (prev : option ascii) (pos : nat) (r : string) :
  match_at no_flags delimiter_regex prev pos ("---" ++ r) <> None.
Proof.
  unfold match_at, delimiter_regex. cbn [exec].
  destruct (eat_some no_flags "---" prev pos ("---" ++ r) (starts_with_refl "---" r)) as [p ->].
  discriminate.
Qed.

Lemma prefix_split (n : string) : forall h, prefix n h = true -> exists v, h = (n ++ v)%string.
Proof.
  induction n as [|a n IH]; intros h H.
  - now exists h.
  - destruct h as [|c h]; simpl in H; [discriminate|].
    destruct (ascii_dec a c) as [->|]; [|discriminate].
    destruct (IH h H) as [v ->]. now exists v.
Qed.

Lemma contains_split (n : string) :
  forall h, contains n h = true -> exists u v, h = (u ++ n ++ v)%string.
Proof.
  induction h as [|c h IH]; cbn [contains]; intro H.
  - rewrite orb_false_r in H. apply prefix_split in H as [v ->]. now exists EmptyString, v.
  - apply orb_true_iff in H as [H | H].
    + apply prefix_split in H as [v ->]. now exists EmptyString, v.
    + destruct (IH H) as (u & v & ->). now exists (String c u), v.
Qed.

Lemma take_drop (n : nat) (s : string) :
  n <= String.length s ->
  s = (substring 0 n s ++ drop n s)%string /\ String.length (substring 0 n s) = n.
Proof.
  revert n. induction s as [|c s IH]; intros [|n] L; simpl in *; try lia; auto.
  destruct (IH n) as [E Ln]; [lia|]. split; [now rewrite <- E | now rewrite Ln].
Qed.

Lemma drop_app_le (n : nat) (pre x : string) :
  n <= String.length pre -> drop n (pre ++ x) = (drop n pre ++ x)%string.
Proof.
  revert n. induction pre as [|c pre IH]; intros [|n] L; simpl in *; try lia; auto.
  apply IH. lia.
Qed.

Lemma slice_in_prefix (n : nat) (pre x : string) :
  n <= String.length pre -> slice n (String.length pre) (pre ++ x) = drop n pre.
Proof.
  intro L. destruct (take_drop n pre L) as [E Ln].
  remember (substring 0 n pre) as a eqn:Ea. remember (drop n pre) as b eqn:Eb.
  clear Ea Eb. subst pre. rewrite app_assoc_s.
  apply slice_middle; [now symmetry | now rewrite length_app, Ln].
Qed.

Lemma pieces_nonempty (s : string) (cur : nat) (ms : list rmatch) : pieces s cur ms <> [].
Proof. destruct ms; discriminate. Qed.

Lemma join_with_cons (sep x : string) (l : list string) :
  l <> [] -> join_with sep (x :: l) = (x ++ sep ++ join_with sep l)%string.
Proof. destruct l; [congruence | reflexivity]. Qed.

Lemma scan_ok_bound (f : flags) (r : regex) (whole : string) (lo : nat) (m : rmatch)
  (ms : list rmatch) :
  scan_ok f r whole lo (m :: ms) -> m_end m <= String.length whole.
Proof.
  intros (_ & _ & (pre & w & post & -> & _ & -> & _) & _). rewrite !length_app. lia.
Qed.

(** The pieces between the delimiters, joined by the delimiter, are the text. *)
Lemma pieces_join (whole : string) :
  forall ms lo,
    scan_ok no_flags delimiter_regex whole lo ms -> lo <= String.length whole ->
    join_with "---" (pieces whole lo ms) = drop lo whole.
Proof.
  induction ms as [|m ms IH]; intros lo H L; [reflexivity|].
  pose proof (scan_ok_bound _ _ _ _ _ _ H) as Hb.
  cbn [pieces]. rewrite join_with_cons by apply pieces_nonempty.
  destruct H as (H1 & H2 & (pre & w & post & E & Hs & He & Hl & _) & _ & H5).
  rewrite (IH _ H5 Hb). apply delimiter_lang in Hl. subst w.
  rewrite Hs, He, E.
  rewrite slice_in_prefix by lia.
  rewrite (drop_app_le lo pre) by lia. f_equal.
  replace (String.length pre + String.length "---")
    with (String.length (pre ++ "---")) by now rewrite length_app.
  rewrite <- app_assoc_s, drop_app. reflexivity.
Qed.

(** No piece holds a delimiter. *)
Lemma pieces_clean (whole : string) :
  forall ms lo,
    scan_ok no_flags delimiter_regex whole lo ms -> lo <= String.length whole ->
    Forall (fun b => contains "---" b = false) (pieces whole lo ms).
Proof.
  induction ms as [|m ms IH]; intros lo H L.
  - constructor; [|constructor].
    destruct (contains "---" (drop lo whole)) eqn:C; [|reflexivity].
    apply contains_split in C as (u & v & C).
    destruct (take_drop lo whole L) as [E Ln]. rewrite C in E.
    cbn [scan_ok] in H.
    specialize (H (substring 0 lo whole ++ u)%string ("---" ++ v)%string).
    rewrite app_assoc_s in H. specialize (H E).
    rewrite length_app, Ln in H.
    exfalso. apply (delimiter_match_here _ _ _ (H ltac:(lia))).
  - pose proof (scan_ok_bound _ _ _ _ _ _ H) as Hb.
    destruct H as (H1 & H2 & (pre & w & post & E & Hs & He & Hl & _) & Hgap & H5).
    cbn [pieces]. constructor; [|now apply IH].
    rewrite Hs, E, slice_in_prefix by lia.
    destruct (contains "---" (drop lo pre)) eqn:C; [|reflexivity].
    apply contains_split in C as (u & v & C).
    assert (Lp : lo <= String.length pre) by lia.
    destruct (take_drop lo pre Lp) as [Ep Ln]. rewrite C in Ep.
    specialize (Hgap (substring 0 lo pre ++ u)%string ("---" ++ v ++ w ++ post)%string).
    assert (Ew : whole = ((substring 0 lo pre ++ u) ++ "---" ++ v ++ w ++ post)%string).
    { rewrite E. rewrite Ep at 1. now rewrite !app_assoc_s. }
    assert (Llen : String.length pre = lo + String.length u + 3 + String.length v).
    { rewrite Ep at 1. rewrite !length_app, Ln. simpl. lia. }
    specialize (Hgap Ew). rewrite length_app, Ln in Hgap.
    exfalso. apply (delimiter_match_here _ _ _ (Hgap ltac:(lia) ltac:(lia))).
Qed.

(** X1.  Splitting a file at the delimiter of line 47 loses nothing but the
    delimiters: the blocks, joined again by three dashes, are the text of
    the file, and no block contains three dashes in a row. *)
Theorem split_blocks (filetext : string) :
  join_with "---" (re_split no_flags delimiter_regex filetext) = filetext /\
  Forall (fun block => contains "---" block = false)
    (re_split no_flags delimiter_regex filetext).
Proof.
  pose proof (re_finditer_scan no_flags delimiter_regex filetext (le_S _ _ (le_S _ _ (le_n 1))))
    as H.
  unfold re_split. split.
  - now rewrite (pieces_join filetext _ 0 H (Nat.le_0_l _)).
  - exact (pieces_clean filetext _ 0 H (Nat.le_0_l _)).
Qed.

(** ** Where the segments come from *)

Lemma gaps_type (s : string) :
  forall ch cur seg, In seg (gaps s cur ch) -> type seg = "t".
Proof.
  induction ch as [|x ch IH]; intros cur seg H; simpl in H; [contradiction|].
  apply in_app_or in H as [H | H]; [|now apply (IH _ _ H)].
  destruct (cur <? start x)%nat; [|contradiction].
  destruct H as [<- | []]. reflexivity.
Qed.

Lemma segments_of_origin (s : string) (seg : segment) :
  In seg (segments_of s) ->
  In seg (paragraph_spans s) \/ In seg (url_spans s) \/ type seg = "t".
Proof.
  unfold segments_of. intro H.
  destruct (paragraph_spans s ++ url_spans s) as [|x found] eqn:E; [contradiction|].
  rewrite fill_gaps_eq in H. cbn [app] in H.
  apply (Permutation_in _ (Permutation_sym (sort_by_start_perm _))) in H.
  apply in_app_or in H as [H | H].
  - apply (Permutation_in _ (Permutation_sym (sort_by_start_perm _))) in H.
    rewrite <- E in H. apply in_app_or in H as [H | H]; auto.
  - right. right. apply in_app_or in H as [H | H]; [now apply gaps_type in H|].
    destruct (_ <? _)%nat; [|contradiction]. destruct H as [<- | []]. reflexivity.
Qed.

Lemma paragraph_spans_type (s : string) (seg : segment) :
  In seg (paragraph_spans s) -> type seg = "p".
Proof. unfold paragraph_spans. intro H. apply in_map_iff in H as (m & <- & _). reflexivity. Qed.

Lemma url_spans_type (s : string) (seg : segment) :
  In seg (url_spans s) -> type seg = "u".
Proof. unfold url_spans. intro H. apply in_map_iff in H as (m & <- & _). reflexivity. Qed.

Lemma scan_ok_in (f : flags) (r : regex) (whole : string) :
  forall ms lo m,
    scan_ok f r whole lo ms -> In m ms ->
    exists pre w post,
      whole = (pre ++ w ++ post)%string /\ m_start m = String.length pre /\
      m_end m = String.length pre + String.length w /\ lang f r w.
Proof.
  induction ms as [|x ms IH]; intros lo m H Hin; [contradiction|].
  destruct H as (_ & _ & (pre & w & post & E & Hs & He & Hl & _) & _ & H5).
  destruct Hin as [<- | Hin]; [|now apply (IH _ _ H5)].
  exists pre, w, post. auto.
Qed.

(** ** The URL nodes *)

Lemma lang_str (p w : string) : lang no_flags (Str p) w -> w = p.
Proof. intros [L H]. now apply starts_with_exact. Qed.

(** A match of the URL pattern is a scheme, a colon and a body of at least
    one character of the body class. *)
Lemma url_lang (w : string) :
  lang no_flags url_regex w ->
  exists sch body,
    In sch schemes /\ w = (sch ++ ":" ++ body)%string /\ body <> EmptyString /\
    forallb url_body_char (chars body) = true.
Proof.
  unfold url_regex. cbn [lang].
  intros (w0 & w1 & -> & -> & wa & w2 & -> & Hsch & wc & w3 & -> & Hc & wb & w4 & -> & Hb & ->).
  apply lang_str in Hc. subst wc. destruct Hb as [Hne Hb].
  assert (Hin : In wa schemes).
  { unfold schemes.
    destruct Hsch as [(x & y & -> & Hx & Hy) | [H | [H | [H | [H | H]]]]].
    - apply lang_str in Hx. subst x.
      destruct Hy as [-> | Hy]; [now left|].
      apply lang_str in Hy. subst y. right. now left.
    - apply lang_str in H. subst wa. do 2 right. now left.
    - apply lang_str in H. subst wa. do 3 right. now left.
    - apply lang_str in H. subst wa. do 4 right. now left.
    - apply lang_str in H. subst wa. do 5 right. now left.
    - apply lang_str in H. subst wa. do 6 right. now left. }
  exists wa, wb. rewrite app_empty_r. simpl append at 1. repeat split; auto.
Qed.

Lemma url_body_char_safe (c : ascii) : url_body_char c = true -> attribute_safe c = true.
Proof. each_char c; intro H; try reflexivity; discriminate H. Qed.

Lemma url_text_safe (sch body : string) :
  In sch schemes -> forallb url_body_char (chars body) = true ->
  forallb attribute_safe (chars (sch ++ ":" ++ body)) = true.
Proof.
  intros Hin Hb.
  assert (Hbody : forallb attribute_safe (chars body) = true)
    by (revert Hb; apply forallb_weaken, url_body_char_safe).
  unfold schemes in Hin. simpl in Hin.
  repeat (destruct Hin as [<- | Hin]; [cbn [append chars forallb]; now rewrite Hbody|]).
  contradiction.
Qed.

Lemma url_spans_value (s : string) (seg : segment) :
  In seg (url_spans s) ->
  exists sch body,
    In sch schemes /\ body <> EmptyString /\ forallb url_body_char (chars body) = true /\
    value seg = Some (sch ++ ":" ++ body)%string /\
    slice (start seg) (end_ seg) s = (sch ++ ":" ++ body)%string.
Proof.
  unfold url_spans. intro H. apply in_map_iff in H as (m & <- & Hm).
  pose proof (re_finditer_scan no_flags url_regex s ltac:(simpl; lia)) as Hscan.
  destruct (scan_ok_in _ _ _ _ _ _ Hscan Hm) as (pre & w & post & E & Hs & He & Hl).
  destruct (url_lang w Hl) as (sch & body & Hin & -> & Hne & Hb).
  assert (Hslice : slice (m_start m) (m_end m) s = (sch ++ ":" ++ body)%string)
    by (rewrite E; now apply slice_middle).
  exists sch, body. cbn [value start end_]. unfold group0. rewrite Hslice. auto.
Qed.

(** X7.  Every URL segment of the resolved list covers a text made of one
    of the seven schemes of the pattern, a colon and a non-empty rest; this
    text holds no whitespace, quote or angle bracket, and the segment is
    emitted as one link node for exactly this text, whatever the job flag. *)
Theorem url_segment_value (s : string) (job : bool) (seg : segment) :
  In seg (segments_of s) -> type seg = "u" ->
  exists sch body,
    In sch schemes /\ body <> EmptyString /\
    slice (start seg) (end_ seg) s = (sch ++ ":" ++ body)%string /\
    forallb attribute_safe (chars (sch ++ ":" ++ body)) = true /\
    emit job seg = Ok [urlstr_init (sch ++ ":" ++ body)].
Proof.
  intros Hin Ht.
  destruct (segments_of_origin s seg Hin) as [H | [H | H]].
  - apply paragraph_spans_type in H. congruence.
  - destruct (url_spans_value s seg H) as (sch & body & Hs & Hne & Hb & Hv & Hsl).
    exists sch, body. repeat split; auto.
    + now apply url_text_safe.
    + unfold emit, get_value. now rewrite Ht, Hv.
  - congruence.
Qed.

(** ** Escaped text *)

Lemma html_escape_clean (s : string) :
  forallb (fun c => negb (markup_char c)) (chars (html_escape s)) = true.
Proof.
  induction s as [|c s IH]; [reflexivity|].
  cbn [html_escape]. rewrite chars_app, forallb_app, IH, andb_true_r.
  destruct (Ascii.eqb c "&") eqn:E1; [reflexivity|].
  destruct (Ascii.eqb c "<") eqn:E2; [reflexivity|].
  destruct (Ascii.eqb c ">") eqn:E3; [reflexivity|].
  destruct (Ascii.eqb c dq) eqn:E4; [reflexivity|].
  destruct (Ascii.eqb c sq) eqn:E5; [reflexivity|].
  cbn [chars forallb]. unfold markup_char. now rewrite E2, E3, E4, E5.
Qed.

Lemma html_escape_plain (s : string) :
  forallb (fun c => negb (markup_char c || Ascii.eqb c "&")) (chars s) = true ->
  html_escape s = s.
Proof.
  induction s as [|c s IH]; [reflexivity|].
  cbn [chars forallb html_escape]. intro H. apply andb_true_iff in H as [Hc Hs].
  rewrite (IH Hs). unfold markup_char in Hc.
  apply negb_true_iff in Hc. repeat (apply orb_false_iff in Hc as [Hc ?]).
  now rewrite H, Hc, H0, H1, H2.
Qed.

(** X10.  A plain node keeps its string as plain text; its HTML never holds
    an angle bracket or a quote of either kind, and is the string itself when
    the string holds none of these and no ampersand. *)
Theorem text_node_escaped (s : string) :
  print_text (texthtmlstr_init s) = s /\
  forallb (fun c => negb (markup_char c)) (chars (print_html (texthtmlstr_init s))) = true /\
  (forallb (fun c => negb (markup_char c || Ascii.eqb c "&")) (chars s) = true ->
   print_html (texthtmlstr_init s) = s).
Proof.
  split; [reflexivity|]. split; [apply html_escape_clean | apply html_escape_plain].
Qed.

(** ** The renderings of a body *)

Lemma join_app (l1 l2 : list string) : join (l1 ++ l2) = (join l1 ++ join l2)%string.
Proof.
  unfold join. induction l1 as [|x l1 IH]; simpl; [reflexivity|].
  now rewrite IH, app_assoc_s.
Qed.

Lemma emit_plain (s : string) (seg : segment) :
  built s seg ->
  exists n, emit false seg = Ok [n] /\
            print_text n = segment_text s seg /\ print_html n = segment_html s seg.
Proof.
  unfold emit, get_value, segment_text, segment_html.
  intros [[-> _] | [[-> ->] | [-> ->]]]; simpl; eexists; repeat split.
Qed.

Lemma emit_all_plain (s : string) (segs : list segment) :
  Forall (built s) segs ->
  exists nodes,
    emit_all false segs = Ok nodes /\
    map print_text nodes = map (segment_text s) segs /\
    map print_html nodes = map (segment_html s) segs.
Proof.
  induction 1 as [|seg segs Hseg _ (rest & E & Ht & Hh)]; simpl.
  - now exists [].
  - destruct (emit_plain s seg Hseg) as (n & -> & Hn1 & Hn2). rewrite E. simpl.
    eexists. split; [reflexivity|]. simpl. now rewrite Hn1, Hn2, Ht, Hh.
Qed.

Lemma covered_when_found (s : string) :
  paragraph_spans s ++ url_spans s <> [] -> covered s (segments_of s) = s.
Proof.
  intro Hne. rewrite (segments_of_tiling s Hne).
  destruct (found_chain s) as [Hc Hb].
  rewrite (tiles_covered s _ 0 (String.length s)
             (tiling_tiles s _ 0 Hc Hb (Nat.le_0_l _))), drop_slice.
  reflexivity.
Qed.

(** X8.  With the job flag off the classifier never raises, and the two
    renderings of its result are assembled segment by segment: the plain
    text gives two newlines for a paragraph break and the covered substring
    otherwise; the HTML gives a paragraph change for a break, a link for a
    URL and the escaped substring for text, all between paragraph tags.  A
    string with a URL and without a paragraph break has itself as plain
    text. *)
Theorem body_rendering (s : string) :
  exists nodes,
    parsedstr_init s false = Ok nodes /\
    mixedstr_print_text nodes = join (map (segment_text s) (segments_of s)) /\
    mixedstr_print_html nodes
    = ("<p>" ++ join (map (segment_html s) (segments_of s)) ++ "</p>")%string /\
    (paragraph_spans s = [] -> url_spans s <> [] -> mixedstr_print_text nodes = s).
Proof.
  destruct (emit_all_plain s (segments_of s) (segments_of_built s)) as (nodes & E & Ht & Hh).
  exists nodes. unfold parsedstr_init, classified, mixedstr_print_text, mixedstr_print_html.
  rewrite Ht, Hh. repeat split; [exact E|].
  intros Hp Hu.
  assert (Hne : paragraph_spans s ++ url_spans s <> []) by (rewrite Hp; exact Hu).
  transitivity (covered s (segments_of s)); [|now apply covered_when_found].
  unfold covered. f_equal.
  apply map_ext_in. intros seg Hin. unfold segment_text.
  destruct (String.eqb (type seg) "p") eqn:Ep; [|reflexivity].
  apply String.eqb_eq in Ep.
  destruct (segments_of_origin s seg Hin) as [H | [H | H]].
  - rewrite Hp in H. contradiction.
  - apply url_spans_type in H. congruence.
  - congruence.
Qed.

Lemma segments_tile_when_found_witness :
  paragraph_spans "Visit http://example.com today."
    ++ url_spans "Visit http://example.com today." <> [] /\
  tiles 0 (segments_of "Visit http://example.com today.") 31 /\
  covered "Visit http://example.com today."
    (segments_of "Visit http://example.com today.")
  = "Visit http://example.com today.".
Proof.
  assert (H : paragraph_spans "Visit http://example.com today."
                ++ url_spans "Visit http://example.com today." <> [])
    by (vm_compute; discriminate).
  split; [exact H|].
  exact (segments_tile_when_found "Visit http://example.com today." H).
Defined.

(** ** Whitespace and lines *)

Lemma space_lower (c : ascii) : is_space c = true -> to_lower c = c.
Proof. each_char c; intro H; try reflexivity; discriminate H. Qed.

Lemma lower_space (a : ascii) : is_space (to_lower a) = true -> to_lower a = a.
Proof. each_char a; intro H; try reflexivity; discriminate H. Qed.

Lemma same_char_is_space (ci : bool) (a c : ascii) :
  same_char ci a c = true -> is_space c = true -> is_space a = true.
Proof.
  destruct ci; simpl; intros H Hc; apply Ascii.eqb_eq in H.
  - rewrite (space_lower c Hc) in H.
    assert (Ha : is_space (to_lower a) = true) by now rewrite H.
    apply lower_space in Ha. congruence.
  - now subst.
Qed.

Lemma whitespace_only_lines (s : string) :
  whitespace_only s = true -> Forall (fun l => whitespace_only l = true) (lines s).
Proof.
  unfold whitespace_only. induction s as [|c s IH]; intro H.
  - repeat constructor.
  - cbn [chars forallb] in H. apply andb_true_iff in H as [Hc Hs].
    specialize (IH Hs). cbn [lines].
    destruct (Ascii.eqb c nl); [now constructor|].
    destruct (lines s) as [|l ls]; [repeat constructor; simpl; now rewrite Hc|].
    inversion IH as [|? ? Hl Hls]; subst.
    constructor; [|exact Hls]. cbn [chars forallb]. now rewrite Hc.
Qed.

(** A block with a line that begins with a field name is not blank. *)
Lemma field_line_not_blank (ci : bool) (a : ascii) (name block line : string) :
  is_space a = false ->
  first_line_with ci (String a name) block = Some line ->
  whitespace_only block = false.
Proof.
  intros Ha H. unfold first_line_with in H. apply find_some in H as [Hin Hs].
  destruct (whitespace_only block) eqn:W; [|reflexivity].
  apply whitespace_only_lines in W. rewrite Forall_forall in W. specialize (W line Hin).
  destruct line as [|c line]; simpl in Hs; [discriminate|].
  apply andb_true_iff in Hs as [Hc _].
  unfold whitespace_only in W. cbn [chars forallb] in W. apply andb_true_iff in W as [Wc _].
  rewrite (same_char_is_space ci a c Hc Wc) in Ha. discriminate.
Qed.

Lemma lines_no_nl (s : string) : Forall (fun l => no_nl l = true) (lines s).
Proof.
  induction s as [|c s IH]; cbn [lines]; [repeat constructor|].
  destruct (Ascii.eqb c nl) eqn:Hc; [now constructor|].
  destruct (lines s) as [|l ls]; [repeat constructor; unfold no_nl; simpl; now rewrite Hc|].
  inversion IH as [|? ? Hl Hls]; subst. constructor; [|exact Hls].
  unfold no_nl in *. cbn [chars forallb]. now rewrite Hc.
Qed.

Lemma no_nl_drop (n : nat) (s : string) : no_nl s = true -> no_nl (drop n s) = true.
Proof.
  unfold no_nl. revert n. induction s as [|c s IH]; intros [|n] H; simpl in *; auto.
  apply andb_true_iff in H as [_ H]. now apply IH.
Qed.

Lemma no_nl_field_value (name line : string) :
  no_nl line = true -> no_nl (field_value name line) = true.
Proof.
  intro H. unfold field_value, less_space.
  pose proof (no_nl_drop (String.length name) line H) as Hd.
  destruct (drop (String.length name) line) as [|c v]; [reflexivity|].
  destruct (Ascii.eqb c " "); [|exact Hd].
  unfold no_nl in *. simpl in Hd. now apply andb_true_iff in Hd as [_ Hd].
Qed.

(** ** The two blank tests *)

Lemma all_spaces_atom (f : flags) (b : string) :
  forallb (atom_ok f sp) (chars b) = all_spaces b.
Proof. unfold all_spaces. apply forallb_same. intro c. apply atom_ok_sp. Qed.

Lemma blank_value_inv (v : string) :
  no_nl v = true -> re_match no_flags blank_value_regex v <> None -> all_spaces v = true.
Proof.
  unfold re_match, match_at, blank_value_regex. cbn [exec at_bol]. intros Hn H.
  destruct (star _ _ _ _ _ _) as [a|] eqn:E; [clear H | congruence].
  apply star_inv in E as (w & r & -> & Hw & Hk).
  assert (Hr : r = EmptyString).
  { destruct r as [|c r]; [reflexivity|]. exfalso.
    cbn [exec at_eol] in Hk. destruct (Ascii.eqb c nl) eqn:Hc; [|discriminate].
    unfold no_nl in Hn. rewrite chars_app, forallb_app in Hn.
    apply andb_true_iff in Hn as [_ Hn]. simpl in Hn. now rewrite Hc in Hn. }
  subst r. rewrite app_empty_r. now rewrite all_spaces_atom in Hw.
Qed.

Lemma all_spaces_app (u v : string) :
  all_spaces (u ++ v) = (all_spaces u && all_spaces v)%bool.
Proof. unfold all_spaces. now rewrite chars_app, forallb_app. Qed.

(** X2.  The blank test of line 51 skips a block exactly when the block
    consists of spaces only, or of spaces followed by one newline that ends
    it. *)
Theorem blank_item_exact (block : string) :
  is_some (re_match no_flags blank_item_regex block) = true <->
  all_spaces block = true \/
  exists b, block = (b ++ String nl EmptyString)%string /\ all_spaces b = true.
Proof.
  split.
  - unfold re_match, match_at, blank_item_regex. cbn [exec]. intro H.
    destruct (star _ _ _ _ _ _) as [a|] eqn:E; [clear H | discriminate].
    apply star_inv in E as (v & r & -> & Hv & Hk).
    assert (Hsp : all_spaces v = true).
    { now rewrite all_spaces_atom in Hv. }
    destruct r as [|c [|d r]]; cbn [exec at_eol MULTILINE no_flags orb] in Hk.
    + left. now rewrite app_empty_r.
    + destruct (Ascii.eqb c nl) eqn:Hc; [|discriminate].
      apply Ascii.eqb_eq in Hc. subst c. right. now exists v.
    + rewrite andb_false_r in Hk. discriminate.
  - assert (Hok : forall b, all_spaces b = true ->
                     forallb (atom_ok no_flags sp) (chars b) = true).
    { intros b H. now rewrite all_spaces_atom. }
    unfold re_match, match_at, blank_item_regex. cbn [exec].
    intros [H | (b & -> & H)].
    + rewrite <- (app_empty_r block) at 1.
      now rewrite (star_all _ _ (0 + String.length block, None) EmptyString Logic.I
                     block None None 0 (Hok _ H)).
    + now rewrite (star_all _ _ (0 + String.length b, None) (String nl EmptyString) eq_refl
                     b None None 0 (Hok _ H)).
Qed.

(** ** The body of an item *)

Lemma lstrip_parts (x : string) :
  exists ws,
    x = (ws ++ lstrip x)%string /\ forallb is_space (chars ws) = true /\
    match lstrip x with EmptyString => True | String c _ => is_space c = false end.
Proof.
  induction x as [|c x (ws & E & Hws & Hl)]; cbn [lstrip].
  - exists EmptyString. repeat split.
  - destruct (is_space c) eqn:Hc.
    + exists (String c ws). cbn [append chars forallb]. rewrite Hc, Hws, <- E. auto.
    + exists EmptyString. repeat split. exact Hc.
Qed.

(** Behind the field name the body pattern skips whitespace and takes the
    rest of the block as group 1. *)
Lemma body_tail_exec (pre x : string) (g : capture) (prev : option ascii) :
  exists e a b,
    exec MIS (Star (ASet is_space) +++ Group (Star ADot)) g prev (String.length pre) x finish
    = Some (e, Some (a, b)) /\
    slice a b (pre ++ x) = lstrip x.
Proof.
  destruct (lstrip_parts x) as (ws & E & Hws & Hl).
  remember (lstrip x) as y eqn:Ey. clear Ey. subst x.
  cbn [exec].
  exists (String.length pre + String.length ws + String.length y),
         (String.length pre + String.length ws),
         (String.length pre + String.length ws + String.length y).
  split.
  - apply star_all; [exact Hl | exact Hws |].
    rewrite <- (app_empty_r y) at 1.
    apply star_all; [exact Logic.I | | reflexivity].
    clear. induction y as [|c y IH]; [reflexivity | exact IH].
  - rewrite <- (app_empty_r y) at 2. rewrite <- app_assoc_s.
    apply slice_middle; now rewrite length_app.
Qed.

Lemma body_match_at (pre s : string) (prev : option ascii) :
  at_bol MIS prev = true -> starts_with true "text:" s = true ->
  exists m,
    match_at MIS body_regex prev (String.length pre) s = Some m /\
    group1 (pre ++ s) m = lstrip (drop (String.length "text:") s).
Proof.
  intros Hb Hs. unfold match_at, body_regex.
  pose proof body_tail_exec as Htail.
  remember (Star (ASet is_space) +++ Group (Star ADot)) as tail. cbn [exec]. rewrite Hb.
  destruct (eat_some MIS "text:" prev (String.length pre) s Hs) as [prev' ->].
  destruct (starts_with_split true "text:" s Hs) as (n' & Es & Ln).
  destruct (Htail (pre ++ n')%string (drop (String.length "text:") s) None prev')
    as (e & a & b & E & Hslice).
  rewrite length_app, Ln in E. rewrite E.
  eexists. split; [reflexivity|].
  unfold group1. cbn [m_span1]. rewrite <- Hslice. f_equal.
  rewrite app_assoc_s. f_equal. exact Es.
Qed.

(** The search of line 84 finds the first line that begins with [text:]. *)
Lemma body_search_from :
  forall s pre prev,
    option_map (group1 (pre ++ s)) (search_from MIS body_regex prev (String.length pre) s)
    = option_map lstrip (after_field true "text:" (at_bol MIS prev) s).
Proof.
  induction s as [|c s IH]; intros pre prev; cbn [search_from after_field].
  - destruct (at_bol MIS prev && starts_with true "text:" "")%bool eqn:H.
    + apply andb_true_iff in H as [_ H]. discriminate H.
    + unfold body_regex.
      now rewrite (anchored_match_none MIS "text:" _ prev (String.length pre) "" H).
  - destruct (at_bol MIS prev && starts_with true "text:" (String c s))%bool eqn:H.
    + apply andb_true_iff in H as [Hb Hs].
      destruct (body_match_at pre (String c s) prev Hb Hs) as (m & -> & Hg).
      simpl option_map. now rewrite Hg.
    + unfold body_regex at 1.
      rewrite (anchored_match_none MIS "text:" _ prev (String.length pre) (String c s) H).
      rewrite append_cons.
      replace (S (String.length pre)) with (String.length (pre ++ String c "")).
      2:{ rewrite length_app. simpl. lia. }
      rewrite IH. reflexivity.
Qed.

Lemma body_search (s : string) :
  option_map (group1 s) (re_search MIS body_regex s)
  = option_map lstrip (after_field true "text:" true s).
Proof. exact (body_search_from s EmptyString None). Qed.

(** ** A well-formed item *)

(** X3.  A block without a line starting with [img-url:], with a line
    starting with [title:] and one starting with [text:] (both up to case),
    does not raise and appends exactly one item, leaving the image alone.
    The title is the value of the first title line without its trailing
    whitespace; the sender is the value of the first [from:] line, if any;
    the body is the classification of everything behind the first [text:],
    through the end of the block, stripped of whitespace at both ends, with
    the job flag read off the title. *)
Theorem parse_item_appends (self : aaswitems) (block title_line after : string) :
  has_line false "img-url:" block = false ->
  first_line_with true "title:" block = Some title_line ->
  after_field true "text:" true block = Some after ->
  exists text,
    parsedstr_init (rstrip (lstrip after))
      (isjob (rstrip (field_value "title:" title_line))) = Ok text /\
    parse_item self block =
      Ok (Aaswitems
            (items self ++
               [Item (rstrip (field_value "title:" title_line))
                  (option_map (field_value "from:") (first_line_with true "from:" block))
                  text])
            (image_url self) (image_caption self)).
Proof.
  intros Himg Htitle Hafter.
  assert (Hws : whitespace_only block = false)
    by (eapply (field_line_not_blank true "t"); [reflexivity | exact Htitle]).
  rewrite (parse_item_fields self block Hws Himg).
  pose proof (field_search MI eq_refl eq_refl "title:" eq_refl block) as Ht.
  fold title_regex in Ht. cbn [IGNORECASE MI] in Ht. rewrite Htitle in Ht.
  destruct (re_search MI title_regex block) as [mtitle|]; [|discriminate].
  injection Ht as Ht. rewrite Ht.
  pose proof (body_search block) as Hb. rewrite Hafter in Hb.
  destruct (re_search MIS body_regex block) as [mbody|]; [|discriminate].
  injection Hb as Hb. rewrite Hb.
  pose proof (field_search MI eq_refl eq_refl "from:" eq_refl block) as Hf.
  fold from_regex in Hf. cbn [IGNORECASE MI] in Hf. rewrite Hf.
  destruct (emit_all_built
              (classified (rstrip (lstrip after))
                 (isjob (rstrip (field_value "title:" title_line))))
              (isjob (rstrip (field_value "title:" title_line)))
              _ (segments_of_built _)) as [text E].
  exists text. unfold parsedstr_init. rewrite E. split; reflexivity.
Qed.

Lemma parse_item_appends_witness :
  has_line false "img-url:" example_block = false /\
  first_line_with true "title:" example_block = Some "title: Test" /\
  after_field true "text:" true example_block = Some " Visit http://example.com today." /\
  exists text,
    parse_item empty_aaswitems example_block
    = Ok (Aaswitems [Item "Test" None text] EmptyString NoCaption).
Proof.
  split; [reflexivity|]. split; [reflexivity|]. split; [reflexivity|].
  destruct (parse_item_appends empty_aaswitems example_block "title: Test"
              " Visit http://example.com today." eq_refl eq_refl eq_refl) as (text & _ & E).
  exists text. exact E.
Defined.

(** ** Items accumulate *)





(** ** An image header without caption *)

Lemma header_without_caption (self : aaswitems) (block line : string) :
  first_line_with false "img-url:" block = Some line ->
  all_spaces (field_value "img-url:" line) = false ->
  has_line false "img-caption:" block = false ->
  parse_item self block
  = Ok (Aaswitems (items self) (field_value "img-url:" line) (image_caption self)).
Proof.
  intros Hline Hval Hcap. unfold parse_item.
  assert (Hws : whitespace_only block = false)
    by (eapply (field_line_not_blank false "i"); [reflexivity | exact Hline]).
  destruct (re_match no_flags blank_item_regex block) eqn:Eb.
  { assert (H : whitespace_only block = true) by (apply blank_item_inv; congruence).
    congruence. }
  cbn [is_some]. cbv iota.
  pose proof (field_search M eq_refl eq_refl "img-url:" eq_refl block) as Hs.
  fold imgurl_regex in Hs. cbn [IGNORECASE M] in Hs. rewrite Hline in Hs.
  destruct (re_search M imgurl_regex block) as [mu|]; [|discriminate].
  injection Hs as Hg. rewrite Hg.
  assert (Hnl : no_nl (field_value "img-url:" line) = true).
  { apply no_nl_field_value. unfold first_line_with in Hline.
    apply find_some in Hline as [Hin _].
    pose proof (lines_no_nl block) as Hl. rewrite Forall_forall in Hl. now apply Hl. }
  destruct (re_match no_flags blank_value_regex (field_value "img-url:" line)) eqn:Ev.
  { assert (H : all_spaces (field_value "img-url:" line) = true)
      by (apply blank_value_inv; [exact Hnl | congruence]).
    congruence. }
  cbn [is_some]. cbv iota.
  assert (Hc : re_search M imgcaption_regex block = None).
  { apply is_some_none. unfold imgcaption_regex.
    now rewrite (field_search_some M eq_refl eq_refl "img-caption:" eq_refl). }
  now rewrite Hc.
Qed.

(** ** The names of the output files *)









(** ** Title lines *)

Lemma append_inv_head (p a b : string) : (p ++ a = p ++ b)%string -> a = b.
Proof. induction p as [|c p IH]; simpl; [auto|]. intros [= H]. auto. Qed.

Lemma str_of_nat_inj (n m : nat) : str_of_nat n = str_of_nat m -> n = m.
Proof.
  unfold str_of_nat. intro H.
  assert (E : Nat.to_uint n = Nat.to_uint m).
  { apply (f_equal NilEmpty.uint_of_string) in H. rewrite !NilEmpty.usu in H. congruence. }
  apply (f_equal Nat.of_uint) in E. now rewrite !DecimalNat.Unsigned.of_to in E.
Qed.

(** X12.  The anchor names of title lines tell the item numbers apart, with
    or without an issue identifier; the line of the table of contents links
    to the anchor name that the heading of the same item carries as its id,
    and both lines have the same plain text. *)
Theorem anchors_distinct (uniqident : option string) (n m : nat) (title : string) :
  (itemstring n uniqident = itemstring m uniqident -> n = m) /\
  print_html (titleline_init title n uniqident true)
  = ("<a href=" ++ quoted ("#" ++ itemstring n uniqident) ++ ">"
     ++ str_of_nat n ++ ". " ++ title ++ "</a><br />" ++ String nl EmptyString)%string /\
  print_html (titleline_init title n uniqident false)
  = ("<div id=" ++ quoted (itemstring n uniqident) ++ ">"
     ++ str_of_nat n ++ ". " ++ title ++ "</div>" ++ String nl EmptyString)%string /\
  print_text (titleline_init title n uniqident true)
  = print_text (titleline_init title n uniqident false).
Proof.
  split; [|repeat split].
  unfold itemstring. intro H.
  apply str_of_nat_inj.
  destruct uniqident as [[|c u]|]; cbn [truthy] in H.
  - now apply (append_inv_head "item").
  - apply (append_inv_head "item") in H. apply (append_inv_head (String c u)) in H.
    now apply (append_inv_head "-") in H.
  - now apply (append_inv_head "item").
Qed.

(** ** The date of the issue *)

(** X13.  The date of line 279 is the first Friday from today on: it is a
    Friday, it lies at most six days ahead, it is today when today is a
    Friday, and no day from today up to the day before it is a Friday. *)
Theorem issue_friday_first (today : Z) :
  weekday (issue_friday today) = FRIDAY /\
  (today <= issue_friday today < today + 7)%Z /\
  (weekday today = FRIDAY -> issue_friday today = today) /\
  (forall d, (today <= d < issue_friday today)%Z -> weekday d <> FRIDAY).
Proof.
  unfold issue_friday, weekday, FRIDAY.
  repeat split; try intros; Z.div_mod_to_equations; lia.
Qed.

(** ** Composite renderers *)

Lemma print_text_app (a b : mixedstr) :
  mixedstr_print_text (a ++ b) = (mixedstr_print_text a ++ mixedstr_print_text b)%string.
Proof. unfold mixedstr_print_text. now rewrite map_app, join_app. Qed.

(** X11.  Adding to a composite appends: the plain text after adding a
    composite, or a single node, is the plain text before followed by the
    plain text of what was added, and the HTML after adding a composite is
    the two sequences of node renderings inside one pair of paragraph
    tags. *)
Theorem add_renders (self m : mixedstr) (n : texthtmlstr) :
  mixedstr_print_text (add self (inr m))
  = (mixedstr_print_text self ++ mixedstr_print_text m)%string /\
  mixedstr_print_text (add self (inl n)) = (mixedstr_print_text self ++ print_text n)%string /\
  mixedstr_print_html (add self (inr m))
  = ("<p>" ++ join (map print_html self) ++ join (map print_html m) ++ "</p>")%string.
Proof.
  cbn [add]. rewrite !print_text_app. repeat split.
  - unfold mixedstr_print_text at 2. simpl. now rewrite app_empty_r.
  - unfold mixedstr_print_html. now rewrite map_app, join_app, app_assoc_s.
Qed.

(** ** The newsletter *)

Section NewsletterFacts.

Variable strftime : string -> Z -> string.
Variable day : Z -> nat.
Variable image_size : string -> nat * nat.

Lemma online_notice_parses : exists notice, parsedstr_init online_notice false = Ok notice.
Proof. eexists. vm_compute. reflexivity. Qed.

(** X14.  Given that the image can be fetched, the build raises exactly
    when an image address is set while no caption is; in particular the
    notice of line 311 never makes the classifier raise. *)
Theorem build_raises_iff (today : Z) (its : aaswitems) :
  (exists e, build_newsletter strftime day image_size today its = BuildRaise e) <->
  image_url its <> EmptyString /\ image_caption its = NoCaption.
Proof.
  unfold build_newsletter. destruct online_notice_parses as [notice ->].
  destruct (String.eqb (image_url its) EmptyString) eqn:E.
  - apply String.eqb_eq in E. split; [intros [e H]; discriminate | intros [H _]; congruence].
  - apply String.eqb_neq in E. destruct (image_size (image_url its)) as [width height].
    destruct (image_caption its) as [|c].
    + split; [auto | intros _; now eexists].
    + split; [intros [e H]; discriminate | intros [_ H]; discriminate].
Qed.

Lemma enumerate_nth {A : Type} (l : list A) :
  forall n i x, nth_error l i = Some x -> In (n + i, x) (enumerate n l).
Proof.
  induction l as [|y l IH]; intros n [|i] x H; simpl in *; try discriminate.
  - injection H as ->. left. now rewrite Nat.add_0_r.
  - right. rewrite <- Nat.add_succ_comm. now apply IH.
Qed.

(** What a successful build returns. *)
Lemma build_shape (today : Z) (its : aaswitems) (heading : string) (newsletter : mixedstr) :
  build_newsletter strftime day image_size today its = Built heading newsletter ->
  exists image_nodes notice,
    parsedstr_init online_notice false = Ok notice /\
    newsletter = image_nodes ++ newsletter_body strftime day (issue_friday today) notice (items its) /\
    heading = ("AASWomen Newsletter for "
               ++ issue_datestr strftime day (issue_friday today))%string /\
    mixedstr_print_text image_nodes = EmptyString.
Proof.
  unfold build_newsletter. destruct online_notice_parses as [notice ->].
  remember (newsletter_body strftime day (issue_friday today) notice (items its)) as body.
  intro H.
  destruct (String.eqb (image_url its) EmptyString).
  - exists [], notice. injection H as <- <-. subst body. repeat split.
  - destruct (image_size (image_url its)) as [width height].
    destruct (image_caption its) as [|c]; [discriminate|].
    exists [htmlonly_init (img_html (image_url its) width height (print_html c))], notice.
    injection H as <- <-. subst body. repeat split.
Qed.

(** X15.  A newsletter that is built holds, for the item at index [i] of the
    list, the line of the table of contents and the heading line, both
    numbered [i + 1] and carrying the identifier of the issue, and every
    node of the body of the item. *)
Theorem newsletter_lists_items (today : Z) (its : aaswitems) (heading : string)
  (newsletter : mixedstr) (i : nat) (it : item) :
  build_newsletter strftime day image_size today its = Built heading newsletter ->
  nth_error (items its) i = Some it ->
  let uniqident := Some (uniqident_of strftime (issue_friday today)) in
  In (titleline_init (item_title it) (S i) uniqident true) newsletter /\
  In (titleline_init (item_title it) (S i) uniqident false) newsletter /\
  incl (item_text it) newsletter.
Proof.
  intros H Hi uniq.
  destruct (build_shape _ _ _ _ H) as (image_nodes & notice & _ & -> & _ & _).
  pose proof (enumerate_nth (items its) 1 i it Hi) as Hin. cbn [Nat.add] in Hin.
  unfold newsletter_body.
  assert (Hsec : incl (item_section (uniqident_of strftime (issue_friday today)) (S i, it))
                   (concat (map (item_section (uniqident_of strftime (issue_friday today)))
                              (enumerate 1 (items its))))).
  { intros x Hx. apply in_concat. eexists. split; [|exact Hx].
    apply in_map_iff. now exists (S i, it). }
  repeat split.
  - apply in_or_app. right. apply in_or_app. right. apply in_or_app. left.
    unfold toc_lines. apply in_map_iff. now exists (S i, it).
  - do 6 (apply in_or_app; right). apply Hsec.
    unfold item_section. cbn [fst snd]. simpl. auto.
  - intros x Hx. do 6 (apply in_or_app; right). apply Hsec.
    unfold item_section. cbn [fst snd].
    apply in_or_app. right. apply in_or_app. right. apply in_or_app. right.
    apply in_or_app. now left.
Qed.

(** X16.  The image block leaves no trace in the plain text: a newsletter
    built with an image has the same heading and the same plain text as the
    newsletter built from the same items without image. *)
Theorem plain_text_ignores_image (today : Z) (its : aaswitems) (heading : string)
  (newsletter : mixedstr) :
  build_newsletter strftime day image_size today its = Built heading newsletter ->
  exists bare,
    build_newsletter strftime day image_size today
      (Aaswitems (items its) EmptyString NoCaption) = Built heading bare /\
    mixedstr_print_text newsletter = mixedstr_print_text bare.
Proof.
  intro H.
  destruct (build_shape _ _ _ _ H) as (image_nodes & notice & En & -> & -> & Himg).
  exists (newsletter_body strftime day (issue_friday today) notice (items its)).
  split.
  - unfold build_newsletter. rewrite En. reflexivity.
  - now rewrite print_text_app, Himg.
Qed.

End NewsletterFacts.

(** ** Lines of the job section *)

Lemma skip_spaces_split (s : string) :
  exists v, s = (v ++ skip_spaces s)%string /\ forallb (atom_ok no_flags sp) (chars v) = true.
Proof.
  induction s as [|c s (v & E & Hv)]; [now exists EmptyString|].
  cbn [skip_spaces]. destruct (Ascii.eqb c " ") eqn:Hc.
  - apply Ascii.eqb_eq in Hc. subst c. exists (String " " v). split.
    + cbn [append]. now rewrite <- E.
    + cbn [chars forallb]. now rewrite Hv.
  - now exists EmptyString.
Qed.

Lemma skip_spaces_head (s : string) :
  match skip_spaces s with
  | EmptyString => True
  | String c _ => atom_ok no_flags sp c = false
  end.
Proof.
  induction s as [|c s IH]; [exact Logic.I|].
  cbn [skip_spaces]. destruct (Ascii.eqb c " ") eqn:Hc; [exact IH|].
  rewrite atom_ok_sp, Ascii.eqb_sym. exact Hc.
Qed.

Lemma skip_spaces_app (v r : string) :
  forallb (atom_ok no_flags sp) (chars v) = true ->
  skip_spaces (v ++ r) = skip_spaces r.
Proof.
  induction v as [|c v IH]; [reflexivity|].
  cbn [chars forallb append skip_spaces]. intro H. apply andb_true_iff in H as [Hc Hv].
  rewrite atom_ok_sp, Ascii.eqb_sym in Hc. rewrite Hc. now apply IH.
Qed.

Lemma no_nl_app (u v : string) : no_nl (u ++ v) = (no_nl u && no_nl v)%bool.
Proof. unfold no_nl. now rewrite chars_app, forallb_app. Qed.

Lemma jobline_match (spaces rest : string) :
  forallb (atom_ok no_flags sp) (chars spaces) = true ->
  no_nl rest = true ->
  exists m,
    re_match no_flags jobline_regex (spaces ++ String "-" rest) = Some m /\
    group1 (spaces ++ String "-" rest) m = skip_spaces rest.
Proof.
  intros Hsp Hnl.
  destruct (skip_spaces_split rest) as (v2 & E2 & Hv2).
  pose proof (skip_spaces_head rest) as Hhead.
  remember (skip_spaces rest) as body eqn:Eb.
  assert (Hbody : forallb (atom_ok no_flags ADot) (chars body) = true).
  { rewrite E2, no_nl_app in Hnl. apply andb_true_iff in Hnl as [_ Hnl]. exact Hnl. }
  set (a := 0 + String.length spaces + 1 + String.length v2).
  exists (Match 0 (a + String.length body) (Some (a, a + String.length body))).
  split.
  - unfold re_match, match_at, jobline_regex.
    remember (Str "-" +++ Star sp +++ Group (Star ADot) +++ Eol) as tail eqn:Et.
    cbn [exec].
    erewrite (star_all (atom_ok no_flags sp) _ (a + String.length body, Some (a, a + String.length body)));
      [reflexivity | | exact Hsp |].
    + rewrite atom_ok_sp. reflexivity.
    + subst tail. remember (Group (Star ADot) +++ Eol) as tail2 eqn:Et2.
      cbn [exec eat]. unfold lit_ok. cbn [IGNORECASE no_flags]. rewrite Ascii.eqb_refl.
      rewrite E2.
      apply (star_all (atom_ok no_flags sp)); [exact Hhead | exact Hv2 |].
      subst tail2. cbn [exec].
      rewrite <- (app_empty_r body) at 1.
      apply (star_all (atom_ok no_flags ADot)); [exact Logic.I | exact Hbody |].
      cbn [exec at_eol]. unfold finish. f_equal. f_equal; [|f_equal; f_equal]; unfold a; lia.
  - unfold group1. cbn [m_span1].
    replace (spaces ++ String "-" rest)%string
      with ((spaces ++ String "-" v2) ++ body ++ EmptyString)%string.
    + apply slice_middle; [|f_equal]; unfold a; rewrite length_app; simpl; lia.
    + rewrite app_empty_r, app_assoc_s. cbn [append]. now rewrite <- E2.
Qed.

Lemma jobline_no_match (jobline : string) :
  re_match no_flags jobline_regex jobline <> None ->
  exists rest, skip_spaces jobline = String "-" rest.
Proof.
  unfold re_match, match_at, jobline_regex. intro H.
  remember (Str "-" +++ Star sp +++ Group (Star ADot) +++ Eol) as tail eqn:Et.
  cbn [exec] in H.
  destruct (star (atom_ok no_flags sp) None None 0 jobline _) as [ans|] eqn:E; [|congruence].
  apply star_inv in E as (v & r & -> & Hv & Hk).
  subst tail. remember (Star sp +++ Group (Star ADot) +++ Eol) as tail2.
  cbn [exec] in Hk.
  destruct (eat no_flags "-" _ _ r) as [[[p' q'] r']|] eqn:Ee; [|discriminate].
  apply eat_exact in Ee. subst r. cbn [append].
  exists r'. rewrite skip_spaces_app by exact Hv. reflexivity.
Qed.

(** X9.  A line of a text segment of the job section that consists of
    spaces, a dash, spaces and a rest gives a node whose plain text is a
    dash, one space, the rest and a newline, and whose HTML is the escaped
    plain text followed by a line break tag; any other line gives the plain
    node of the line itself. *)
Theorem jobstr_bullet (jobline : string) :
  no_nl jobline = true ->
  jobstr jobline =
    match skip_spaces jobline with
    | String c rest =>
        if Ascii.eqb c "-"
        then TextHtml ("- " ++ skip_spaces rest ++ String nl EmptyString)
               (html_escape ("- " ++ skip_spaces rest ++ String nl EmptyString) ++ "<br />")
        else texthtmlstr_init jobline
    | EmptyString => texthtmlstr_init jobline
    end.
Proof.
  intro Hnl. unfold jobstr.
  destruct (skip_spaces_split jobline) as (v & E & Hv).
  destruct (skip_spaces jobline) as [|c rest] eqn:Es.
  - destruct (re_match no_flags jobline_regex jobline) eqn:Em; [|reflexivity].
    destruct (jobline_no_match jobline) as [x Hx]; congruence.
  - destruct (Ascii.eqb c "-") eqn:Hc.
    + apply Ascii.eqb_eq in Hc. subst c.
      assert (Hrest : no_nl rest = true).
      { rewrite E, no_nl_app in Hnl. apply andb_true_iff in Hnl as [_ Hnl].
        unfold no_nl in *. cbn [chars forallb] in Hnl. now apply andb_true_iff in Hnl as [_ Hnl]. }
      destruct (jobline_match v rest Hv Hrest) as (m & Em & Eg).
      rewrite E, Em, Eg. reflexivity.
    + destruct (re_match no_flags jobline_regex jobline) eqn:Em; [|reflexivity].
      destruct (jobline_no_match jobline) as [x Hx]; [congruence|].
      rewrite Es in Hx. injection Hx as -> _. now rewrite Ascii.eqb_refl in Hc.
Qed.

Lemma jobstr_bullet_witness :
  no_nl "  -   Postdoc at X" = true /\
  jobstr "  -   Postdoc at X"
  = TextHtml ("- Postdoc at X" ++ String nl EmptyString)
      ("- Postdoc at X" ++ String nl "<br />").
Proof.
  split; [reflexivity|]. exact (jobstr_bullet "  -   Postdoc at X" eq_refl).
Defined.

(** ** An image header without caption, up to the build *)

Lemma all_spaces_nonempty (s : string) : all_spaces s = false -> s <> EmptyString.
Proof. intros H ->. discriminate. Qed.

(** X5.  A header block with an image address that is not blank and without
    a line starting with [img-caption:] is accepted by the parser: it sets
    the address, adds no item and leaves the caption as it was.  If no
    caption was set before, the build that follows, once it has fetched the
    image, raises the AttributeError of line 296 instead of returning a
    newsletter, since the caption is still the empty string. *)
Theorem captionless_image_breaks_build (strftime : string -> Z -> string) (day : Z -> nat)
  (image_size : string -> nat * nat) (self : aaswitems) (block line : string) (today : Z) :
  first_line_with false "img-url:" block = Some line ->
  all_spaces (field_value "img-url:" line) = false ->
  has_line false "img-caption:" block = false ->
  image_caption self = NoCaption ->
  exists its,
    parse_item self block = Ok its /\
    items its = items self /\
    image_url its = field_value "img-url:" line /\
    build_newsletter strftime day image_size today its
    = BuildRaise (AttributeError "'str' object has no attribute 'print_html'").
Proof.
  intros Hline Hval Hcap Hself.
  eexists. split; [exact (header_without_caption self block line Hline Hval Hcap)|].
  split; [reflexivity|]. split; [reflexivity|].
  unfold build_newsletter. cbn [image_url image_caption].
  apply all_spaces_nonempty, String.eqb_neq in Hval. rewrite Hval.
  destruct (image_size _) as [width height]. now rewrite Hself.
Qed.

Lemma captionless_image_breaks_build_witness :
  exists its,
    parse_item empty_aaswitems "img-url: http://example.com/a.png" = Ok its /\
    build_newsletter (fun _ _ => "x") (fun _ => 1) (fun _ => (1, 1)) 0%Z its
    = BuildRaise (AttributeError "'str' object has no attribute 'print_html'").
Proof.
  destruct (captionless_image_breaks_build (fun _ _ => "x") (fun _ => 1) (fun _ => (1, 1))
              empty_aaswitems "img-url: http://example.com/a.png"
              "img-url: http://example.com/a.png" 0%Z eq_refl eq_refl eq_refl eq_refl)
    as (its & Hp & _ & _ & Hb).
  exists its. split; [exact Hp | exact Hb].
Defined.

(** ** Instances *)

Lemma url_segment_value_witness :
  let s := "Visit http://example.com today." in
  let seg := Segment 6 24 "u" (Some "http://example.com") in
  In seg (segments_of s) /\ type seg = "u" /\
  emit false seg = Ok [urlstr_init "http://example.com"].
Proof.
  intros s seg.
  assert (Hin : In seg (segments_of s)) by (vm_compute; right; left; reflexivity).
  split; [exact Hin|]. split; [reflexivity|].
  destruct (url_segment_value s false seg Hin eq_refl) as (sch & body & _ & _ & Hsl & _ & He).
  rewrite <- Hsl in He. exact He.
Defined.

Lemma newsletter_lists_items_witness :
  exists text heading newsletter,
    parsedstr_init "See http://example.com now." false = Ok text /\
    build_newsletter (fun _ _ => "x") (fun _ => 1) (fun _ => (1, 1)) 0%Z
      (Aaswitems [Item "Test" None text] EmptyString NoCaption) = Built heading newsletter /\
    In (titleline_init "Test" 1 (Some "xxx") true) newsletter /\
    In (titleline_init "Test" 1 (Some "xxx") false) newsletter /\
    incl text newsletter.
Proof.
  destruct (parsedstr_init "See http://example.com now." false) as [text|] eqn:Et;
    [|vm_compute in Et; discriminate].
  exists text.
  destruct (build_newsletter (fun _ _ => "x") (fun _ => 1) (fun _ => (1, 1)) 0%Z
              (Aaswitems [Item "Test" None text] EmptyString NoCaption)) as [h n|e] eqn:Eb;
    [|vm_compute in Eb; discriminate].
  exists h, n. split; [reflexivity|]. split; [reflexivity|].
  exact (newsletter_lists_items _ _ _ _ _ _ _ 0 (Item "Test" None text) Eb eq_refl).
Defined.

Lemma plain_text_ignores_image_witness :
  exists heading newsletter bare,
    build_newsletter (fun _ _ => "x") (fun _ => 1) (fun _ => (1, 1)) 0%Z
      (Aaswitems [] "http://example.com/a.png" (Caption (texthtmlstr_init "A & B")))
    = Built heading newsletter /\
    build_newsletter (fun _ _ => "x") (fun _ => 1) (fun _ => (1, 1)) 0%Z
      (Aaswitems [] EmptyString NoCaption) = Built heading bare /\
    mixedstr_print_text newsletter = mixedstr_print_text bare.
Proof.
  eexists. eexists.
  assert (H : build_newsletter (fun _ _ => "x") (fun _ => 1) (fun _ => (1, 1)) 0%Z
      (Aaswitems [] "http://example.com/a.png" (Caption (texthtmlstr_init "A & B")))
    = Built ?[h] ?[n]) by (vm_compute; reflexivity).
  destruct (plain_text_ignores_image _ _ _ _ _ _ _ H) as (bare & Hb & Ht).
  exists bare. split; [exact H|]. split; [exact Hb | exact Ht].
Defined.
